(** * Document detection and rectification pipeline
    (flask_document_processor.py)

    A shallow embedding of the geometric core of the document scanner:
    [order_points], [four_point_transform], [detect_document_edges],
    [detect_document_edges_alternative] and [enhance_document], and of the
    lines of [process_document] that call them and draw the detected
    corners.

    Conventions.
    - A point is a pair of integers [(x, y)].  Every point that reaches
      [order_points] in the program is a pixel coordinate (an [int32] row of
      an approximated contour, or a [float32] row holding an integer), so
      sums, differences and squares are exact and are computed in [Z].
    - [int (np.sqrt v)] on such a value is the integer square root [Z.sqrt].
    - The OpenCV primitives are not part of the repository; they are the
      fields of the interface [CV2], and every statement about the pipeline
      is made for an arbitrary implementation of that interface.
    - numpy arrays holding images live in a store of buffers; an array value
      is a view (buffer address and window) so that slicing shares the
      buffer of the array it slices, as in numpy. *)

From Stdlib Require Import ZArith QArith Lia Ascii.
From stdpp Require Import base option list sorting gmap.

Local Open Scope Z_scope.

(** ** Points and small numpy helpers *)

Definition point : Type := Z * Z.

Definition px (p : point) : Z := fst p.
Definition py (p : point) : Z := snd p.

(** [pts.sum(axis=1)]: one sum [x + y] per row. *)
Definition sum_axis1 (pts : list point) : list Z :=
  map (fun p => px p + py p) pts.

(** [np.diff(pts, axis=1)]: one difference [y - x] per row (second column
    minus first column). *)
Definition diff_axis1 (pts : list point) : list Z :=
  map (fun p => py p - px p) pts.

(** [np.argmin] on a flat array: the index of the first occurrence of the
    minimum; [None] stands for the [ValueError] numpy raises on an empty
    sequence. *)
Fixpoint argmin (l : list Z) : option nat :=
  match l with
  | [] => None
  | x :: l' =>
      match argmin l' with
      | None => Some 0%nat
      | Some j =>
          match l' !! j with
          | Some y => if y <? x then Some (S j) else Some 0%nat
          | None => Some 0%nat
          end
      end
  end.

(** [np.argmax]: the index of the first occurrence of the maximum. *)
Fixpoint argmax (l : list Z) : option nat :=
  match l with
  | [] => None
  | x :: l' =>
      match argmax l' with
      | None => Some 0%nat
      | Some j =>
          match l' !! j with
          | Some y => if x <? y then Some (S j) else Some 0%nat
          | None => Some 0%nat
          end
      end
  end.

(** ** order_points *)

(** [rect = np.zeros((4, 2))], then the four row assignments, in the order
    of the source.  [pts[i]] is [pts !! i]. *)
Definition order_points (pts : list point) : option (list point) :=
  let rect := replicate 4 ((0, 0) : point) in
  let s := sum_axis1 pts in
  let diff := diff_axis1 pts in
  i0 ← argmin s; p0 ← pts !! i0;
  let rect := <[0%nat := p0]> rect in
  i2 ← argmax s; p2 ← pts !! i2;
  let rect := <[2%nat := p2]> rect in
  i1 ← argmin diff; p1 ← pts !! i1;
  let rect := <[1%nat := p1]> rect in
  i3 ← argmax diff; p3 ← pts !! i3;
  let rect := <[3%nat := p3]> rect in
  Some rect.

(** ** Target size of four_point_transform *)

(** [int(np.sqrt((a[0] - b[0]) ** 2 + (a[1] - b[1]) ** 2))] *)
Definition edge_len (a b : point) : Z :=
  Z.sqrt ((px a - px b) ^ 2 + (py a - py b) ^ 2).

(** [(tl, tr, br, bl) = rect] *)
Definition unpack4 (rect : list point) : option (point * point * point * point) :=
  match rect with
  | [tl; tr; br; bl] => Some (tl, tr, br, bl)
  | _ => None
  end.

(** [maxWidth] and [maxHeight], lines 37-44. *)
Definition max_width (tl tr br bl : point) : Z :=
  Z.max (edge_len br bl) (edge_len tr tl).

Definition max_height (tl tr br bl : point) : Z :=
  Z.max (edge_len tr br) (edge_len tl bl).

(** The [dst] array, lines 47-52. *)
Definition dst_rect (maxWidth maxHeight : Z) : list point :=
  [ (0, 0); (maxWidth - 1, 0); (maxWidth - 1, maxHeight - 1); (0, maxHeight - 1) ].

(** The size [(maxWidth, maxHeight)] that [four_point_transform] computes
    for [pts] and hands to [cv2.warpPerspective]. *)
Definition target_size (pts : list point) : option (Z * Z) :=
  rect ← order_points pts;
  '(tl, tr, br, bl) ← unpack4 rect;
  Some (max_width tl tr br bl, max_height tl tr br bl).

(** ** Geometry used to state the claims *)

(** Twice the signed area of the triangle [o a b]. *)
Definition cross (o a b : point) : Z :=
  (px a - px o) * (py b - py o) - (py a - py o) * (px b - px o).

(** The four points, in the cyclic order given, are the vertices of a
    strictly convex quadrilateral (so they are distinct and no three are
    collinear). *)
Definition convex_quad (pts : list point) : bool :=
  match pts with
  | [a; b; c; d] =>
      let t1 := cross a b c in
      let t2 := cross b c d in
      let t3 := cross c d a in
      let t4 := cross d a b in
      ((0 <? t1) && (0 <? t2) && (0 <? t3) && (0 <? t4))
      || ((t1 <? 0) && (t2 <? 0) && (t3 <? 0) && (t4 <? 0))
  | _ => false
  end.

(** The ordering invariant as the specification words it: differences are
    taken as [x - y]. *)
Definition ordering_by_x_minus_y (pts rect : list point) : Prop :=
  ∃ tl tr br bl, rect = [tl; tr; br; bl] ∧
    ∀ q, q ∈ pts →
      px tl + py tl <= px q + py q ∧ px q + py q <= px br + py br ∧
      px tr - py tr <= px q - py q ∧ px q - py q <= px bl - py bl.

(** The ordering the source computes: differences are [y - x]. *)
Definition ordering_by_y_minus_x (pts rect : list point) : Prop :=
  ∃ tl tr br bl, rect = [tl; tr; br; bl] ∧
    tl ∈ pts ∧ tr ∈ pts ∧ br ∈ pts ∧ bl ∈ pts ∧
    ∀ q, q ∈ pts →
      px tl + py tl <= px q + py q ∧ px q + py q <= px br + py br ∧
      py tr - px tr <= py q - px q ∧ py q - px q <= py bl - px bl.

(** The corners of the end-to-end scenario and of the tilted square. *)
Definition scenario_pts : list point :=
  [ (100, 50); (900, 80); (880, 750); (120, 720) ].

Definition diamond_pts : list point :=
  [ (5, 0); (10, 5); (5, 10); (0, 5) ].

(** ** Images, contours and the OpenCV interface *)

(** A pixel is a single intensity or a 3-channel colour; an image value is
    the list of its rows. *)
Inductive pixel : Type :=
  | Gray (v : Z)
  | BGR (b g r : Z).

Definition Image : Type := list (list pixel).

Definition contour : Type := list point.

(** The OpenCV constants the source passes. *)
Inductive color_code := COLOR_BGR2GRAY | COLOR_GRAY2BGR.
Inductive adaptive_method := ADAPTIVE_THRESH_GAUSSIAN_C.
Inductive thresh_type := THRESH_BINARY.
Inductive morph_op := MORPH_CLOSE | MORPH_OPEN.
Inductive retr_mode := RETR_EXTERNAL.
Inductive approx_mode := CHAIN_APPROX_SIMPLE.

(** [np.pi / n] *)
Inductive angle := pi_over (n : Z).

(** The OpenCV calls of the source.  Areas, perimeters and tolerances are
    binary floating-point numbers, which are rationals; the comparisons the
    source makes on them are the comparisons of [Q]. *)
Class CV2 := {
  matrix : Type;
  cvtColor : Image → color_code → Image;
  GaussianBlur : Image → Z * Z → Z → Image;
  adaptiveThreshold :
    Image → Z → adaptive_method → thresh_type → Z → Z → Image;
  morphologyEx : Image → morph_op → Image → Image;
  Canny : Image → Z → Z → Z → Image;
  dilate : Image → Image → Z → Image;
  findContours : Image → retr_mode → approx_mode → list contour;
  contourArea : contour → Q;
  arcLength : contour → bool → Q;
  approxPolyDP : contour → Q → bool → contour;
  bilateralFilter : Image → Z → Z → Z → Image;
  HoughLines : Image → Z → angle → Z → option (list (Q * Q));
  getPerspectiveTransform : list point → list point → matrix;
  warpPerspective : Image → matrix → Z * Z → Image;
  clahe_apply : Q → Z * Z → Image → Image;
  circle : Image → point → Z → Z * Z * Z → Z → Image;
  polylines : Image → list (list point) → bool → Z * Z * Z → Z → Image
}.

(** ** Contour selection (lines 88-101) *)

Section Selection.
Context `{CV2}.

(** [a > b] on floats. *)
Definition Qgtb (a b : Q) : bool := negb (Qle_bool a b).

(** [sorted(contours, key=cv2.contourArea, reverse=True)]: Python's sort
    is stable, also with [reverse=True]; a contour is placed before the
    first contour whose area is not larger than its own. *)
Fixpoint insert_by_area (c : contour) (l : list contour) : list contour :=
  match l with
  | [] => [c]
  | d :: l' =>
      if Qgtb (contourArea d) (contourArea c)
      then d :: insert_by_area c l'
      else c :: d :: l'
  end.

Fixpoint sorted_by_area (l : list contour) : list contour :=
  match l with
  | [] => []
  | c :: l' => insert_by_area c (sorted_by_area l')
  end.

(** [cv2.approxPolyDP(contour, 0.02 * cv2.arcLength(contour, True), True)] *)
Definition approx_of (c : contour) : contour :=
  let epsilon := ((2 # 100) * arcLength c true)%Q in
  approxPolyDP c epsilon true.

(** [len(approx) == 4 and cv2.contourArea(contour) > 10000] *)
Definition qualifies (c : contour) : bool :=
  (length (approx_of c) =? 4)%nat && Qgtb (contourArea c) (10000 # 1).

(** The [for] loop with its [break]: [document_contour] is the
    approximation of the first contour that qualifies, or [None]. *)
Fixpoint find_document (contours : list contour) : option contour :=
  match contours with
  | [] => None
  | c :: rest =>
      if qualifies c then Some (approx_of c) else find_document rest
  end.

(** Areas never increase along a list. *)
Definition area_descending : list contour → Prop :=
  StronglySorted (fun c d => (contourArea d <= contourArea c)%Q).

(** Lines 88-101 together. *)
Definition select_document (contours : list contour) : option contour :=
  find_document (sorted_by_area contours).
End Selection.

(** ** The store of pixel buffers *)

Definition addr : Type := nat.

(** A numpy array of pixels: the buffer it refers to and the window of the
    buffer it shows.  A slice of an array is an array on the same buffer. *)
Record ndarray : Type := {
  base : addr;
  row_off : nat;
  col_off : nat;
  nrows : nat;
  ncols : nat
}.

Abbreviation store := (gmap addr Image).

(** The array that shows the whole of buffer [l], holding [v]. *)
Definition whole (l : addr) (v : Image) : ndarray :=
  {| base := l; row_off := 0; col_off := 0;
     nrows := length v; ncols := max_list (length <$> v) |}.

Arguments whole l%_nat v.

(** The pixels an array shows, given the contents of its buffer. *)
Definition window (a : ndarray) (buf : Image) : Image :=
  map (fun row => take (ncols a) (drop (col_off a) row))
      (take (nrows a) (drop (row_off a) buf)).

(** [a.shape[:2]] *)
Definition shape (a : ndarray) : Z * Z :=
  (Z.of_nat (nrows a), Z.of_nat (ncols a)).

(** One bound of a Python slice on an axis of length [n]: negative indices
    count from the end, and the result is clipped to the axis. *)
Definition slice_index (i : Z) (n : nat) : nat :=
  Z.to_nat (if i <? 0 then Z.max (i + Z.of_nat n) 0 else Z.min i (Z.of_nat n)).

(** [a[r0:r1, c0:c1]]: a view on the buffer of [a]; nothing is copied. *)
Definition slice2 (a : ndarray) (r0 r1 c0 c1 : Z) : ndarray :=
  let rs := slice_index r0 (nrows a) in
  let re := slice_index r1 (nrows a) in
  let cs := slice_index c0 (ncols a) in
  let ce := slice_index c1 (ncols a) in
  {| base := base a;
     row_off := row_off a + rs; col_off := col_off a + cs;
     nrows := re - rs; ncols := ce - cs |}.

(** The window of [a] lies inside a buffer holding [buf]. *)
Definition in_bounds (a : ndarray) (buf : Image) : Prop :=
  (row_off a + nrows a ≤ length buf)%nat ∧
  Forall (fun row => (col_off a + ncols a ≤ length row)%nat) buf.

(** The shape of an array that shows the whole of a buffer holding [v]. *)
Definition dims (v : Image) : Z * Z :=
  (Z.of_nat (length v), Z.of_nat (max_list (length <$> v))).

(** Computations that read and allocate buffers and may raise. *)
Definition M (A : Type) : Type := store → option (A * store).

#[global] Instance M_ret : MRet M := fun A (x : A) σ => Some (x, σ).

#[global] Instance M_bind : MBind M := fun A B (k : A → M B) (m : M A) σ =>
  match m σ with
  | Some (x, σ') => k x σ'
  | None => None
  end.

(** A Python exception where the pure model has [None]. *)
Definition lift {A} (o : option A) : M A :=
  fun σ => match o with Some x => Some (x, σ) | None => None end.

(** A new buffer holding [v]. *)
Definition alloc (v : Image) : M ndarray :=
  fun σ => let l := fresh (dom σ) in Some (whole l v, <[l := v]> σ).

(** The pixels of [a]. *)
Definition load (a : ndarray) : M Image :=
  fun σ => match σ !! base a with
           | Some buf => Some (window a buf, σ)
           | None => None
           end.

(** An OpenCV or numpy call that reads [a] and returns a new array. *)
Definition call (f : Image → Image) (a : ndarray) : M ndarray :=
  v ← load a; alloc (f v).

(** The buffer [buf] with the window of [a] overwritten by [new]. *)
Definition paste_row (off n : nat) (new old : list pixel) : list pixel :=
  take off old ++ take n new ++ drop (off + n) old.

Definition paste (a : ndarray) (new buf : Image) : Image :=
  take (row_off a) buf
  ++ zip_with (paste_row (col_off a) (ncols a)) new
       (take (nrows a) (drop (row_off a) buf))
  ++ drop (row_off a + nrows a) buf.

(** An OpenCV drawing call: it writes its result over the pixels of [a],
    in the buffer of [a]. *)
Definition call_inplace (f : Image → Image) (a : ndarray) : M unit :=
  fun σ => match σ !! base a with
           | Some buf => Some (tt, <[base a := paste a (f (window a buf)) buf]> σ)
           | None => None
           end.

(** [for x in l: body(x)] *)
Fixpoint for_each {A} (l : list A) (body : A → M unit) : M unit :=
  match l with
  | [] => mret tt
  | x :: l' => _ ← body x; for_each l' body
  end.

(** [a.copy()] *)
Definition np_copy (a : ndarray) : M ndarray := call id a.

(** [np.ones((r, c), np.uint8)] *)
Definition np_ones (r c : nat) : M ndarray :=
  alloc (replicate r (replicate c (Gray 1))).

(** [approx.reshape(4, 2)]: the four rows of an array of four points;
    numpy raises on any other length. *)
Definition reshape_4_2 (approx : contour) : option (list point) :=
  if (length approx =? 4)%nat then Some approx else None.

(** [lines is not None and len(lines) >= 4] *)
Definition at_least_4_lines (lines : option (list (Q * Q))) : bool :=
  match lines with
  | Some ls => (4 <=? length ls)%nat
  | None => false
  end.

(** The corner array both fallback tiers build from [h], [w] and
    [padding]. *)
Definition padded_corners (h w padding : Z) : list point :=
  [ (padding, padding); (w - padding, padding);
    (w - padding, h - padding); (padding, h - padding) ].

(** ** The pipeline *)

Section Pipeline.
Context `{CV2}.

(** Lines 31-58.  There is one path: order the corners, compute the target
    size, build [dst], and return what [cv2.warpPerspective] returns. *)
Definition four_point_transform (image : ndarray) (pts : list point)
  : M ndarray :=
  rect ← lift (order_points pts);
  q ← lift (unpack4 rect);
  let '(tl, tr, br, bl) := q in
  let maxWidth := max_width tl tr br bl in
  let maxHeight := max_height tl tr br bl in
  let dst := dst_rect maxWidth maxHeight in
  let M := getPerspectiveTransform rect dst in
  warped ← call (fun src => warpPerspective src M (maxWidth, maxHeight)) image;
  mret warped.

(** Lines 111-155.  With four lines or more the corners are inset by
    [min(h, w) // 20] and the copy is warped; otherwise the corners are inset
    by [min(h, w) // 40] and the slice between them is returned. *)
Definition detect_document_edges_alternative (image : ndarray)
  : M (ndarray * list point) :=
  original ← np_copy image;
  gray ← call (fun v => cvtColor v COLOR_BGR2GRAY) image;
  filtered ← call (fun v => bilateralFilter v 9 75 75) gray;
  edges ← call (fun v => Canny v 50 150 3) filtered;
  e ← load edges;
  let lines := HoughLines e 1 (pi_over 180) 100 in
  if at_least_4_lines lines then
    let '(h, w) := shape image in
    let padding := Z.min h w `div` 20 in
    let corners := padded_corners h w padding in
    warped ← four_point_transform original corners;
    mret (warped, corners)
  else
    let '(h, w) := shape image in
    let padding := Z.min h w `div` 40 in
    let cropped := slice2 image padding (h - padding) padding (w - padding) in
    let corners := padded_corners h w padding in
    mret (cropped, corners).

(** Lines 60-109.  The second [reshape] is the one of the [return]. *)
Definition detect_document_edges (image : ndarray)
  : M (ndarray * list point) :=
  original ← np_copy image;
  gray ← call (fun v => cvtColor v COLOR_BGR2GRAY) image;
  blurred ← call (fun v => GaussianBlur v (5, 5) 0) gray;
  thresh ← call (fun v => adaptiveThreshold v 255 ADAPTIVE_THRESH_GAUSSIAN_C
                             THRESH_BINARY 11 2) blurred;
  kernel ← np_ones 3 3;
  k ← load kernel;
  thresh ← call (fun v => morphologyEx v MORPH_CLOSE k) thresh;
  thresh ← call (fun v => morphologyEx v MORPH_OPEN k) thresh;
  edges ← call (fun v => Canny v 50 150 3) thresh;
  kernel ← np_ones 3 3;
  k ← load kernel;
  edges ← call (fun v => dilate v k 1) edges;
  e ← load edges;
  let contours := findContours e RETR_EXTERNAL CHAIN_APPROX_SIMPLE in
  let contours := sorted_by_area contours in
  let document_contour := find_document contours in
  match document_contour with
  | Some approx =>
      pts ← lift (reshape_4_2 approx);
      warped ← four_point_transform original pts;
      pts' ← lift (reshape_4_2 approx);
      mret (warped, pts')
  | None => detect_document_edges_alternative original
  end.

(** Lines 157-172. *)
Definition enhance_document (image : ndarray) : M ndarray :=
  gray ← call (fun v => cvtColor v COLOR_BGR2GRAY) image;
  enhanced ← call (clahe_apply (2 # 1) (8, 8)) gray;
  filtered ← call (fun v => bilateralFilter v 9 75 75) enhanced;
  result ← call (fun v => cvtColor v COLOR_GRAY2BGR) filtered;
  mret result.

(** Lines 206-226 of [process_document]: detection, enhancement, and the
    corner markers drawn on a copy of the decoded input. *)
Definition process_document_core (opencv_image : ndarray)
  : M (ndarray * ndarray * list point) :=
  r ← detect_document_edges opencv_image;
  let '(cropped_image, corners) := r in
  enhanced_image ← enhance_document cropped_image;
  original_with_corners ← np_copy opencv_image;
  _ ← for_each corners (fun point =>
        call_inplace (fun v => circle v point 10 (0, 255, 0) (-1))
          original_with_corners);
  _ ← call_inplace (fun v => polylines v [corners] true (0, 255, 0) 3)
        original_with_corners;
  mret (enhanced_image, original_with_corners, corners).
End Pipeline.

(** ** Running a computation *)

(** [m] returns from store [σ], with a result and a final store that
    satisfy [Q]. *)
Definition runs {A} (m : M A) (σ : store) (Q : A → store → Prop) : Prop :=
  ∃ x σ', m σ = Some (x, σ') ∧ Q x σ'.

(** ** The data flow of the detection stages, on pixel values *)

Section Views.
Context `{CV2}.

(** [np.ones((3, 3), np.uint8)] *)
Definition kernel3 : Image := replicate 3 (replicate 3 (Gray 1)).

(** Lines 65-83: from the input pixels to the dilated edge map. *)
Definition edge_map (v : Image) : Image :=
  let gray := cvtColor v COLOR_BGR2GRAY in
  let blurred := GaussianBlur gray (5, 5) 0 in
  let thresh := adaptiveThreshold blurred 255 ADAPTIVE_THRESH_GAUSSIAN_C
                  THRESH_BINARY 11 2 in
  let thresh := morphologyEx thresh MORPH_CLOSE kernel3 in
  let thresh := morphologyEx thresh MORPH_OPEN kernel3 in
  let edges := Canny thresh 50 150 3 in
  dilate edges kernel3 1.

(** Lines 86-101: [document_contour] for input pixels [v]. *)
Definition document_contour (v : Image) : option contour :=
  select_document (findContours (edge_map v) RETR_EXTERNAL CHAIN_APPROX_SIMPLE).

(** Lines 114-123: [lines] for input pixels [v]. *)
Definition hough_lines (v : Image) : option (list (Q * Q)) :=
  let gray := cvtColor v COLOR_BGR2GRAY in
  let filtered := bilateralFilter gray 9 75 75 in
  let edges := Canny filtered 50 150 3 in
  HoughLines edges 1 (pi_over 180) 100.

(** Lines 33-56 on pixel values: the image [cv2.warpPerspective] returns
    for source pixels [v] and ordered corners [rect]. *)
Definition warp_of (v : Image) (rect : list point) (tl tr br bl : point) : Image :=
  let maxWidth := max_width tl tr br bl in
  let maxHeight := max_height tl tr br bl in
  warpPerspective v (getPerspectiveTransform rect (dst_rect maxWidth maxHeight))
    (maxWidth, maxHeight).
End Views.

(** The three ways the pipeline obtains its corners. *)
Inductive source_method : Type :=
  | ContourMatch
  | LineEstimate
  | PaddedFallback.

(** The branch [detect_document_edges] takes on input pixels [v]. *)
Definition source_of `{CV2} (v : Image) : source_method :=
  match document_contour v with
  | Some _ => ContourMatch
  | None => if at_least_4_lines (hough_lines v) then LineEstimate else PaddedFallback
  end.

(** ** A stand-in implementation of the OpenCV interface

    Used only to exhibit concrete runs.  Contour extraction and line
    detection report the fixed results [contours] and [lines]; areas are
    polygon areas; a warp paints a black canvas of the requested size (of
    the source size when the requested size is empty, as OpenCV does); a
    drawing call paints every pixel. *)

Definition to_gray (p : pixel) : pixel :=
  match p with
  | Gray v => Gray v
  | BGR b g r => Gray ((114 * b + 587 * g + 299 * r) `div` 1000)
  end.

Definition to_bgr (p : pixel) : pixel :=
  match p with
  | Gray v => BGR v v v
  | BGR b g r => BGR b g r
  end.

(** Twice the signed area of a closed polygon (shoelace formula). *)
Fixpoint shoelace (first prev : point) (c : contour) : Z :=
  match c with
  | [] => px prev * py first - px first * py prev
  | p :: c' => (px prev * py p - px p * py prev) + shoelace first p c'
  end.

Definition polygon_area (c : contour) : Q :=
  match c with
  | [] => 0%Q
  | p :: c' => (Z.abs (shoelace p p c') # 2)%Q
  end.

Fixpoint path_len (first prev : point) (c : contour) : Z :=
  match c with
  | [] => edge_len prev first
  | p :: c' => edge_len prev p + path_len first p c'
  end.

Definition polygon_perimeter (c : contour) : Q :=
  match c with
  | [] => 0%Q
  | p :: c' => inject_Z (path_len p p c')
  end.

Definition black_canvas (src : Image) (dsize : Z * Z) : Image :=
  let '(w, h) := dsize in
  if (0 <? w) && (0 <? h)
  then replicate (Z.to_nat h) (replicate (Z.to_nat w) (BGR 0 0 0))
  else map (map (fun _ => BGR 0 0 0)) src.

Definition paint (color : Z * Z * Z) (v : Image) : Image :=
  let '(b, g, r) := color in map (map (fun _ => BGR b g r)) v.

Definition stand_in (contours : list contour) (lines : option (list (Q * Q))) : CV2 := {|
  matrix := list point * list point;
  cvtColor v code :=
    map (map (match code with COLOR_BGR2GRAY => to_gray | COLOR_GRAY2BGR => to_bgr end)) v;
  GaussianBlur v _ _ := v;
  adaptiveThreshold v _ _ _ _ _ := v;
  morphologyEx v _ _ := v;
  Canny v _ _ _ := v;
  dilate v _ _ := v;
  findContours _ _ _ := contours;
  contourArea := polygon_area;
  arcLength c _ := polygon_perimeter c;
  approxPolyDP c _ _ := c;
  bilateralFilter v _ _ _ := v;
  HoughLines _ _ _ _ := lines;
  getPerspectiveTransform rect dst := (rect, dst);
  warpPerspective src _ dsize := black_canvas src dsize;
  clahe_apply _ _ v := v;
  circle v _ _ color _ := paint color v;
  polylines v _ _ color _ := paint color v
|}.

(** A uniform [h] by [w] colour image. *)
Definition uniform (h w : nat) (p : pixel) : Image := replicate h (replicate w p).

(** ** What a run of the pipeline produces *)

Section RunSpecs.
Context `{CV2}.

(** [out] is a new buffer of [σ'] holding the warp of [v] to the target
    size computed from the ordering of [pts]. *)
Definition warped_from (σ σ' : store) (v : Image) (pts : list point)
    (out : ndarray) : Prop :=
  ∃ tl tr br bl,
    order_points pts = Some [tl; tr; br; bl] ∧
    ordering_by_y_minus_x pts [tl; tr; br; bl] ∧
    (base out ∉ dom σ) ∧
    out = whole (base out) (warp_of v [tl; tr; br; bl] tl tr br bl) ∧
    σ' !! base out = Some (warp_of v [tl; tr; br; bl] tl tr br bl).

(** The result [(out, corners)] and final store [σ'] of
    [detect_document_edges_alternative] on an array showing pixels [v]. *)
Definition alternative_result (σ : store) (image : ndarray) (v : Image)
    (out : ndarray) (corners : list point) (σ' : store) : Prop :=
  let '(h, w) := shape image in
  σ ⊆ σ' ∧
  if at_least_4_lines (hough_lines v) then
    let padding := Z.min h w `div` 20 in
    corners = padded_corners h w padding ∧ warped_from σ σ' v corners out
  else
    let padding := Z.min h w `div` 40 in
    corners = padded_corners h w padding ∧
    out = slice2 image padding (h - padding) padding (w - padding).

(** The result and final store of [detect_document_edges] on an array
    showing pixels [v]. *)
Definition detect_result (σ : store) (v : Image)
    (out : ndarray) (corners : list point) (σ' : store) : Prop :=
  σ ⊆ σ' ∧ (base out ∉ dom σ) ∧
  match document_contour v with
  | Some approx => corners = approx ∧ warped_from σ σ' v approx out
  | None =>
      ∃ original σ1,
        original = whole (base original) v ∧ (base original ∉ dom σ) ∧
        σ' !! base original = Some v ∧ σ ⊆ σ1 ∧
        alternative_result σ1 original v out corners σ'
  end.

(** What the caller receives, by tier: the corners, the array [out] and
    the contents [res] of the buffer [out] refers to. *)
Definition tier_outcome (v : Image) (out : ndarray) (res : Image)
    (corners : list point) : Prop :=
  let '(h, w) := dims v in
  match source_of v with
  | ContourMatch =>
      document_contour v = Some corners ∧ length corners = 4%nat ∧
      ∃ tl tr br bl,
        order_points corners = Some [tl; tr; br; bl] ∧
        out = whole (base out) res ∧
        res = warp_of v [tl; tr; br; bl] tl tr br bl
  | LineEstimate =>
      corners = padded_corners h w (Z.min h w `div` 20) ∧
      ∃ tl tr br bl,
        order_points corners = Some [tl; tr; br; bl] ∧
        out = whole (base out) res ∧
        res = warp_of v [tl; tr; br; bl] tl tr br bl
  | PaddedFallback =>
      let padding := Z.min h w `div` 40 in
      corners = padded_corners h w padding ∧ res = v ∧
      out = slice2 (whole (base out) v) padding (h - padding) padding (w - padding)
  end.
End RunSpecs.

(** ** Inputs and properties the theorems are stated on *)

(** The corners of the axis-aligned rectangle with top-left corner
    [(x0, y0)], width [W] and height [H], clockwise from the top-left. *)
Definition rect_corners (x0 y0 W H : Z) : list point :=
  [ (x0, y0); (x0 + W, y0); (x0 + W, y0 + H); (x0, y0 + H) ].

(** Four distinct points on one vertical line. *)
Definition collinear_pts : list point :=
  [ (5, 0); (5, 4); (5, 6); (5, 10) ].

(** A convex quadrilateral standing on a vertex, taller than wide. *)
Definition tall_diamond : list point :=
  [ (100, 0); (200, 150); (100, 300); (0, 150) ].

(** Equal up to the one pixel that truncation may lose. *)
Definition near (a b : Z) : Prop := Z.abs (a - b) <= 1.

(** The end-to-end scenario as the specification gives it. *)
Definition scenario_as_specified : Prop :=
  order_points scenario_pts = Some [ (100, 50); (900, 80); (880, 750); (120, 720) ] ∧
  ∃ w h, target_size scenario_pts = Some (w, h) ∧ near w 780 ∧ near h 670.

(** The crop of the last tier (lines 144-146), on pixel values. *)
Definition padded_crop (v : Image) : Image :=
  let a := whole 0 v in
  let '(h, w) := shape a in
  let padding := Z.min h w `div` 40 in
  window (slice2 a padding (h - padding) padding (w - padding)) v.

(** The degenerate-geometry guard as the specification gives it: when the
    computed width or height is zero, [four_point_transform] returns the
    identity crop or the padded crop of its input. *)
Definition degenerate_falls_back `{CV2} : Prop :=
  ∀ (σ : store) (image : ndarray) (buf : Image) (pts : list point) (w h : Z),
    σ !! base image = Some buf → length pts = 4%nat →
    target_size pts = Some (w, h) → w = 0 ∨ h = 0 →
    runs (four_point_transform image pts) σ (fun out σ' =>
      ∃ res, σ' !! base out = Some res ∧
        (window out res = window image buf ∨
         window out res = padded_crop (window image buf))).

(** Stores and arrays for concrete runs: one buffer at address 0. *)
Definition white_20 : Image := uniform 20 20 (BGR 255 255 255).
Definition black_10 : Image := uniform 10 10 (BGR 0 0 0).
Definition gray_500 : Image := uniform 500 500 (BGR 128 128 128).

Definition just (v : Image) : store := {[ 0%nat := v ]}.

(** Candidate contours for a concrete selection: one large quadrilateral
    and two small ones, a triangle and a square. *)
Definition large_quad : contour := [ (0, 0); (200, 0); (200, 150); (0, 150) ].
Definition small_triangle : contour := [ (10, 10); (30, 10); (10, 40) ].
Definition small_square : contour := [ (0, 0); (50, 0); (50, 50); (0, 50) ].

(** Four detected lines, as [(rho, theta)] pairs. *)
Definition four_lines : list (Q * Q) :=
  [ (1 # 1, 0 # 1); (2 # 1, 0 # 1); (3 # 1, 0 # 1); (4 # 1, 0 # 1) ]%Q.


(** The last tier on a 500 by 500 input, as the specification gives it. *)
Definition tier2_as_specified : Prop :=
  ∀ (cv : CV2) (σ : store) (image : ndarray) (buf : Image),
    σ !! base image = Some buf → in_bounds image buf →
    shape image = (500, 500) →
    document_contour (window image buf) = None →
    at_least_4_lines (hough_lines (window image buf)) = false →
    runs (detect_document_edges image) σ (fun r σ' =>
      shape r.1 = (475, 475) ∧
      r.2 = [ (12, 12); (487, 12); (487, 487); (12, 487) ]).

(** ** Placements of a quadrilateral *)

(** The point moved by [(dx, dy)]. *)
Definition shift (dx dy : Z) (p : point) : point := (px p + dx, py p + dy).

(** The point mirrored left to right in a frame of width [w]. *)
Definition mirror_x (w : Z) (p : point) : point := (w - px p, py p).

(** The point flipped top to bottom in a frame of height [h]. *)
Definition flip_y (h : Z) (p : point) : point := (px p, h - py p).

(** The point with its coordinates exchanged. *)
Definition transpose (p : point) : point := (py p, px p).

(** What the four ordered corners become when left and right are
    exchanged, and when the two diagonals are exchanged. *)
Definition swap_left_right (rect : list point) : list point :=
  match rect with
  | [tl; tr; br; bl] => [tr; tl; bl; br]
  | _ => rect
  end.

Definition swap_off_diagonal (rect : list point) : list point :=
  match rect with
  | [tl; tr; br; bl] => [tl; bl; br; tr]
  | _ => rect
  end.

(** The quadrilateral standing on a vertex, centred at [(cx, cy)], with
    half-width [a] and half-height [b]: top, right, bottom, left. *)
Definition diamond (cx cy a b : Z) : list point :=
  [ (cx, cy - b); (cx + a, cy); (cx, cy + b); (cx - a, cy) ].

(** No two of the points have the same sum [x + y], and no two the same
    difference [y - x]. *)
Definition distinct_keys (pts : list point) : Prop :=
  (∀ p q, p ∈ pts → q ∈ pts → px p + py p = px q + py q → p = q) ∧
  (∀ p q, p ∈ pts → q ∈ pts → py p - px p = py q - px q → p = q).


(** ** What the caller sees *)

(** The pixels array [a] shows in store [σ]. *)
Definition pixels_of (σ : store) (a : ndarray) : option Image :=
  window a <$> σ !! base a.

(** Lines 159-170 on pixel values. *)
Definition enhanced_pixels `{CV2} (v : Image) : Image :=
  let gray := cvtColor v COLOR_BGR2GRAY in
  let enhanced := clahe_apply (2 # 1) (8, 8) gray in
  let filtered := bilateralFilter enhanced 9 75 75 in
  cvtColor filtered COLOR_GRAY2BGR.

(** ** The image field of the request (lines 190-194) *)

(** A Python string, as the list of its characters. *)
Definition text : Type := list ascii.

(** [s.startswith(prefix)] *)
Fixpoint startswith (prefix s : text) : bool :=
  match prefix, s with
  | [], _ => true
  | _ :: _, [] => false
  | a :: prefix', b :: s' => Ascii.eqb a b && startswith prefix' s'
  end.

(** [s.split(sep)] for a separator of one character: the pieces between
    the separators, empty pieces included; there is always one piece. *)
Fixpoint split_on (sep : ascii) (s : text) : list text :=
  match s with
  | [] => [[]]
  | ch :: s' =>
      if Ascii.eqb ch sep then [] :: split_on sep s'
      else match split_on sep s' with
           | piece :: pieces => (ch :: piece) :: pieces
           | [] => [[ch]]
           end
  end.

(** ['data:image'] *)
Definition data_image : text :=
  [ "d"; "a"; "t"; "a"; ":"; "i"; "m"; "a"; "g"; "e" ]%char.

(** Lines 190-194: the text handed to [base64.b64decode].  [None] is the
    [IndexError] of [split(',')[1]], which the handler turns into the
    500 response. *)
Definition image_payload (image_data : text) : option text :=
  if startswith data_image image_data
  then split_on ","%char image_data !! 1%nat
  else Some image_data.

(** ** Facts about argmin and argmax *)

(** Ties go to the first occurrence. *)
Example argmin_first_occurrence : argmin [3; 1; 2; 1] = Some 1%nat.
Proof. reflexivity. Qed.

Example argmax_first_occurrence : argmax [2; 5; 5; 1] = Some 1%nat.
Proof. reflexivity. Qed.

Lemma argmin_spec (l : list Z) :
  l ≠ [] →
  ∃ i m, argmin l = Some i ∧ l !! i = Some m ∧
    (∀ j y, l !! j = Some y → m <= y) ∧
    (∀ j y, (j < i)%nat → l !! j = Some y → m < y).
Proof.
  induction l as [|x l IH]; [done|]. intros _.
  destruct l as [|x' l'].
  - exists 0%nat, x. cbn. split_and!; try done.
    + intros [|j] y; cbn; [intros [= <-]; lia | done].
    + intros j y Hj. lia.
  - destruct IH as (i & m & Hi & Hm & Hmin & Hfirst); [done|].
    cbn [argmin]. cbn [argmin] in Hi. rewrite Hi, Hm.
    destruct (Z.ltb_spec m x).
    + exists (S i), m. split_and!; try done.
      * intros [|j] y; cbn [lookup list_lookup]; [intros [= <-]; lia | eauto].
      * intros [|j] y Hj; cbn [lookup list_lookup]; [intros [= <-]; lia|].
        apply Hfirst. lia.
    + exists 0%nat, x. split_and!; try done.
      * intros [|j] y; cbn [lookup list_lookup]; [intros [= <-]; lia|].
        intros Hy. specialize (Hmin _ _ Hy). lia.
      * intros j y Hj. lia.
Qed.

Lemma argmax_spec (l : list Z) :
  l ≠ [] →
  ∃ i m, argmax l = Some i ∧ l !! i = Some m ∧
    (∀ j y, l !! j = Some y → y <= m) ∧
    (∀ j y, (j < i)%nat → l !! j = Some y → y < m).
Proof.
  induction l as [|x l IH]; [done|]. intros _.
  destruct l as [|x' l'].
  - exists 0%nat, x. cbn. split_and!; try done.
    + intros [|j] y; cbn; [intros [= <-]; lia | done].
    + intros j y Hj. lia.
  - destruct IH as (i & m & Hi & Hm & Hmax & Hfirst); [done|].
    cbn [argmax]. cbn [argmax] in Hi. rewrite Hi, Hm.
    destruct (Z.ltb_spec x m).
    + exists (S i), m. split_and!; try done.
      * intros [|j] y; cbn [lookup list_lookup]; [intros [= <-]; lia | eauto].
      * intros [|j] y Hj; cbn [lookup list_lookup]; [intros [= <-]; lia|].
        apply Hfirst. lia.
    + exists 0%nat, x. split_and!; try done.
      * intros [|j] y; cbn [lookup list_lookup]; [intros [= <-]; lia|].
        intros Hy. specialize (Hmax _ _ Hy). lia.
      * intros j y Hj. lia.
Qed.

(** ** order_points *)

(** The row picked by [argmin] of a key column is a row of [pts] whose key
    is the least. *)
Lemma argmin_key (key : point → Z) (pts : list point) :
  pts ≠ [] →
  ∃ i p, argmin (map key pts) = Some i ∧ pts !! i = Some p ∧
    ∀ q, q ∈ pts → key p <= key q.
Proof.
  intros Hne.
  destruct (argmin_spec (map key pts)) as (i & m & Hi & Hm & Hmin & _).
  { by destruct pts. }
  rewrite list_lookup_fmap in Hm.
  destruct (pts !! i) as [p|] eqn:Hp; [|done]. injection Hm as <-.
  exists i, p. split_and!; try done.
  intros q [j Hq]%list_elem_of_lookup.
  apply (Hmin j). by rewrite list_lookup_fmap, Hq.
Qed.

Lemma argmax_key (key : point → Z) (pts : list point) :
  pts ≠ [] →
  ∃ i p, argmax (map key pts) = Some i ∧ pts !! i = Some p ∧
    ∀ q, q ∈ pts → key q <= key p.
Proof.
  intros Hne.
  destruct (argmax_spec (map key pts)) as (i & m & Hi & Hm & Hmax & _).
  { by destruct pts. }
  rewrite list_lookup_fmap in Hm.
  destruct (pts !! i) as [p|] eqn:Hp; [|done]. injection Hm as <-.
  exists i, p. split_and!; try done.
  intros q [j Hq]%list_elem_of_lookup.
  apply (Hmax j). by rewrite list_lookup_fmap, Hq.
Qed.

(** When one row has a key strictly below every other row, [argmin] picks
    it, wherever it stands. *)
Lemma argmin_key_unique (key : point → Z) (pts : list point) (p : point) :
  p ∈ pts → (∀ q, q ∈ pts → q ≠ p → key p < key q) →
  ∃ i, argmin (map key pts) = Some i ∧ pts !! i = Some p.
Proof.
  intros Hp Hlt.
  destruct (argmin_key key pts) as (i & p' & Hi & Hp' & Hmin).
  { intros ->. by apply elem_of_nil in Hp. }
  exists i. split; [done|].
  destruct (decide (p' = p)) as [->|Hne]; [done|].
  assert (p' ∈ pts) as Hin by (apply list_elem_of_lookup; eauto).
  specialize (Hlt _ Hin Hne). specialize (Hmin _ Hp). lia.
Qed.

Lemma argmax_key_unique (key : point → Z) (pts : list point) (p : point) :
  p ∈ pts → (∀ q, q ∈ pts → q ≠ p → key q < key p) →
  ∃ i, argmax (map key pts) = Some i ∧ pts !! i = Some p.
Proof.
  intros Hp Hlt.
  destruct (argmax_key key pts) as (i & p' & Hi & Hp' & Hmax).
  { intros ->. by apply elem_of_nil in Hp. }
  exists i. split; [done|].
  destruct (decide (p' = p)) as [->|Hne]; [done|].
  assert (p' ∈ pts) as Hin by (apply list_elem_of_lookup; eauto).
  specialize (Hlt _ Hin Hne). specialize (Hmax _ Hp). lia.
Qed.

(** [order_points] unfolded at the four rows it picks. *)
Lemma order_points_rows (pts : list point) i0 i1 i2 i3 p0 p1 p2 p3 :
  argmin (sum_axis1 pts) = Some i0 → pts !! i0 = Some p0 →
  argmax (sum_axis1 pts) = Some i2 → pts !! i2 = Some p2 →
  argmin (diff_axis1 pts) = Some i1 → pts !! i1 = Some p1 →
  argmax (diff_axis1 pts) = Some i3 → pts !! i3 = Some p3 →
  order_points pts = Some [p0; p1; p2; p3].
Proof.
  intros H0 Hp0 H2 Hp2 H1 Hp1 H3 Hp3. unfold order_points.
  rewrite H0, H1, H2, H3. cbn. rewrite Hp0. cbn. rewrite Hp2. cbn.
  rewrite Hp1. cbn. rewrite Hp3. done.
Qed.

(** On any non-empty input [order_points] returns four rows of the input
    that are extreme for the sum and for the difference [y - x]. *)
Lemma order_points_extremes (pts : list point) :
  pts ≠ [] → ∃ rect, order_points pts = Some rect ∧ ordering_by_y_minus_x pts rect.
Proof.
  intros Hne.
  destruct (argmin_key (fun p => px p + py p) pts Hne) as (i0 & p0 & H0 & Hp0 & Hm0).
  destruct (argmax_key (fun p => px p + py p) pts Hne) as (i2 & p2 & H2 & Hp2 & Hm2).
  destruct (argmin_key (fun p => py p - px p) pts Hne) as (i1 & p1 & H1 & Hp1 & Hm1).
  destruct (argmax_key (fun p => py p - px p) pts Hne) as (i3 & p3 & H3 & Hp3 & Hm3).
  exists [p0; p1; p2; p3]. split.
  - by eapply order_points_rows.
  - exists p0, p1, p2, p3. split_and!; try done;
      try (apply list_elem_of_lookup; eauto; fail).
    intros q Hq. split_and!; eauto.
Qed.

(** ** Rules for running computations *)

Lemma runs_ret {A} (x : A) (σ : store) (Q : A → store → Prop) :
  Q x σ → runs (mret x) σ Q.
Proof. intros HQ. by exists x, σ. Qed.

Lemma runs_bind {A B} (m : M A) (k : A → M B) (σ : store) (Q : B → store → Prop) :
  runs m σ (fun x σ' => runs (k x) σ' Q) → runs (m ≫= k) σ Q.
Proof.
  intros (x & σ' & Hm & y & σ'' & Hk & HQ). exists y, σ''. split; [|done].
  unfold mbind, M_bind. by rewrite Hm.
Qed.

Lemma runs_lift {A} (o : option A) (x : A) (σ : store) (Q : A → store → Prop) :
  o = Some x → Q x σ → runs (lift o) σ Q.
Proof. intros -> HQ. by exists x, σ. Qed.

(** An allocation returns a new address; every buffer that existed is
    still there, unchanged. *)
Lemma runs_alloc (v : Image) (σ : store) (Q : ndarray → store → Prop) :
  (∀ l σ', l ∉ dom σ → σ ⊆ σ' → σ' !! l = Some v → Q (whole l v) σ') →
  runs (alloc v) σ Q.
Proof.
  intros HQ. eexists _, _. split; [reflexivity|].
  pose proof (is_fresh (dom σ)) as Hl. apply HQ; [done | |].
  - apply insert_subseteq. by apply not_elem_of_dom.
  - apply lookup_insert_eq.
Qed.

Lemma runs_load (a : ndarray) (buf : Image) (σ : store) (Q : Image → store → Prop) :
  σ !! base a = Some buf → Q (window a buf) σ → runs (load a) σ Q.
Proof. intros Hb HQ. exists (window a buf), σ. unfold load. by rewrite Hb. Qed.

Lemma runs_call (f : Image → Image) (a : ndarray) (buf : Image) (σ : store)
    (Q : ndarray → store → Prop) :
  σ !! base a = Some buf →
  (∀ l σ', l ∉ dom σ → σ ⊆ σ' → σ' !! l = Some (f (window a buf)) →
     Q (whole l (f (window a buf))) σ') →
  runs (call f a) σ Q.
Proof.
  intros Hb HQ. apply runs_bind. eapply runs_load; [done|]. by apply runs_alloc.
Qed.

Lemma runs_mono {A} (m : M A) (σ : store) (Q Q' : A → store → Prop) :
  runs m σ Q → (∀ x σ', Q x σ' → Q' x σ') → runs m σ Q'.
Proof. intros (x & σ' & Hm & HQ) Himp. exists x, σ'. eauto. Qed.

(** An address that is new for a store is new for every smaller store. *)
Lemma fresh_weaken (σ0 σ : store) (l : addr) :
  l ∉ dom σ → σ0 ⊆ σ → l ∉ dom σ0.
Proof. intros Hl Hsub Hin. apply Hl. by eapply subseteq_dom. Qed.

(** Reading back a whole buffer gives the pixels it was allocated with. *)
Lemma window_whole (l : addr) (v : Image) : window (whole l v) v = v.
Proof.
  unfold window, whole. cbn. rewrite drop_0, firstn_all.
  assert (∀ n, Forall (fun row : list pixel => (length row ≤ n)%nat) v →
               map (fun row => take n (drop 0 row)) v = v) as Hgen.
  { intros n Hn. induction Hn as [|row rows Hrow _ IH]; [done|].
    cbn. rewrite IH. f_equal. by apply take_ge. }
  apply Hgen. apply Forall_forall. intros row Hrow.
  apply max_list_elem_of_le. apply list_elem_of_fmap. eauto.
Qed.

(** Slices clip their bounds and count negative bounds from the end. *)
Example slice_index_clips :
  slice_index 12 500 = 12%nat ∧ slice_index 488 500 = 488%nat ∧
  slice_index 600 500 = 500%nat ∧ slice_index (-12) 500 = 488%nat ∧
  slice_index (-600) 500 = 0%nat.
Proof. repeat split. Qed.

(** A slice of a slice is a window on the same buffer. *)
Example slice2_of_slice2 :
  slice2 (slice2 (whole 7 gray_500) 12 488 12 488) 0 10 5 (-1)
  = {| base := 7%nat; row_off := 12; col_off := 17; nrows := 10; ncols := 470 |}.
Proof. reflexivity. Qed.

(** ** Contour selection *)

Section SelectionFacts.
Context `{CV2}.

Lemma Qgtb_lt (a b : Q) : Qgtb a b = true ↔ (b < a)%Q.
Proof.
  unfold Qgtb. rewrite negb_true_iff. split.
  - intros Hf. apply Qnot_le_lt. intros Hle.
    apply Qle_bool_iff in Hle. congruence.
  - intros Hlt. destruct (Qle_bool a b) eqn:Hb; [|done].
    apply Qle_bool_iff in Hb. exfalso. by apply (Qlt_not_le b a).
Qed.

Lemma Qgtb_le (a b : Q) : Qgtb a b = false ↔ (a <= b)%Q.
Proof.
  unfold Qgtb. rewrite negb_false_iff. apply Qle_bool_iff.
Qed.

Lemma insert_by_area_perm (c : contour) (l : list contour) :
  insert_by_area c l ≡ₚ c :: l.
Proof.
  induction l as [|d l IH]; [done|]. cbn.
  destruct (Qgtb _ _); [|done]. rewrite IH. apply perm_swap.
Qed.

(** The sort keeps exactly the contours it was given. *)
Lemma sorted_by_area_perm (l : list contour) : sorted_by_area l ≡ₚ l.
Proof.
  induction l as [|c l IH]; [done|]. cbn.
  rewrite insert_by_area_perm. by rewrite IH.
Qed.

Lemma insert_by_area_sorted (c : contour) (l : list contour) :
  area_descending l → area_descending (insert_by_area c l).
Proof.
  unfold area_descending. induction 1 as [|d l Hl IH Hd]; cbn.
  - repeat constructor.
  - destruct (Qgtb (contourArea d) (contourArea c)) eqn:Hcmp.
    + constructor; [done|].
      eapply Forall_forall. intros e He.
      rewrite insert_by_area_perm in He.
      apply elem_of_cons in He as [->|He].
      * apply Qlt_le_weak. by apply Qgtb_lt.
      * eapply Forall_forall in Hd; done.
    + apply Qgtb_le in Hcmp. constructor; [by constructor|].
      constructor; [done|].
      eapply Forall_impl; [done|]. intros e He. cbn in He.
      by eapply Qle_trans.
Qed.

Lemma sorted_by_area_sorted (l : list contour) :
  area_descending (sorted_by_area l).
Proof.
  induction l as [|c l IH]; cbn; [constructor|].
  by apply insert_by_area_sorted.
Qed.

(** The loop returns the approximation of the first qualifying contour:
    everything before it fails the test. *)
Lemma find_document_Some (l : list contour) (a : contour) :
  find_document l = Some a ↔
  ∃ l1 c l2, l = l1 ++ c :: l2 ∧ Forall (fun d => qualifies d = false) l1 ∧
    qualifies c = true ∧ a = approx_of c.
Proof.
  induction l as [|d l IH]; cbn.
  - split; [done|]. intros (l1 & c & l2 & Heq & _). by destruct l1.
  - destruct (qualifies d) eqn:Hd.
    + split.
      * intros [= <-]. exists [], d, l. by split_and!.
      * intros (l1 & c & l2 & Heq & Hl1 & Hc & ->).
        destruct l1 as [|d' l1]; cbn in Heq; simplify_eq; [done|].
        apply Forall_cons in Hl1 as [Hd' _]. congruence.
    + rewrite IH. split.
      * intros (l1 & c & l2 & -> & Hl1 & Hc & ->).
        exists (d :: l1), c, l2. split_and!; try done. by constructor.
      * intros (l1 & c & l2 & Heq & Hl1 & Hc & ->).
        destruct l1 as [|d' l1]; cbn in Heq; simplify_eq; [congruence|].
        apply Forall_cons in Hl1 as [_ Hl1]. by exists l1, c, l2.
Qed.

Lemma find_document_None (l : list contour) :
  find_document l = None ↔ Forall (fun d => qualifies d = false) l.
Proof.
  induction l as [|d l IH]; cbn; [by split|].
  destruct (qualifies d) eqn:Hd.
  - split; [done|]. intros [Hd' _]%Forall_cons. congruence.
  - rewrite IH. split; [by constructor | by intros [_ ?]%Forall_cons].
Qed.

Lemma qualifies_spec (c : contour) :
  qualifies c = true ↔ length (approx_of c) = 4%nat ∧ (10000 # 1 < contourArea c)%Q.
Proof.
  unfold qualifies. rewrite andb_true_iff, Nat.eqb_eq, Qgtb_lt. done.
Qed.

(** What is selected has four points. *)
Lemma select_document_length (l : list contour) (a : contour) :
  select_document l = Some a → length a = 4%nat.
Proof.
  unfold select_document. rewrite find_document_Some.
  intros (l1 & c & l2 & _ & _ & Hc & ->). apply qualifies_spec in Hc. tauto.
Qed.
End SelectionFacts.

(** On concrete candidates: the sort puts the largest area first, and the
    square of area 2500, which has four vertices, is passed over. *)
Example sorted_by_area_candidates :
  @sorted_by_area (stand_in [] None) [ small_square; large_quad; small_triangle ]
  = [ large_quad; small_square; small_triangle ] ∧
  @qualifies (stand_in [] None) small_square = false ∧
  @qualifies (stand_in [] None) large_quad = true.
Proof. repeat split. Qed.

(** ** Runs of the pipeline functions *)

(** Steps of a run: a bind, a return, a read, an allocation or a call on an
    array whose buffer is known to be in the store; what is known about the
    store is carried over each allocation. *)
Ltac run_alloc :=
  let l := fresh "l" in
  let σ' := fresh "σ" in
  let Hl := fresh "Hl" in
  let Hext := fresh "Hext" in
  let Hnew := fresh "Hnew" in
  intros l σ' Hl Hext Hnew;
  rewrite ?window_whole in Hnew |- *; unfold id in Hnew |- *;
  lazymatch type of Hext with
  | ?σ ⊆ _ =>
      repeat match goal with
      | Hb : σ !! _ = Some _ |- _ => apply (fun Hb => lookup_weaken _ _ _ _ Hb Hext) in Hb
      | Hs : ?σ0 ⊆ σ |- _ =>
          let Hf := fresh "Hfresh" in
          pose proof (fresh_weaken σ0 σ l Hl Hs) as Hf;
          apply (fun Hs => transitivity Hs Hext) in Hs
      end
  end;
  clear Hl Hext.

Ltac run_step :=
  lazymatch goal with
  | |- runs (_ ≫= _) _ _ => apply runs_bind
  | |- runs (mret _) _ _ => apply runs_ret
  | |- runs (call _ _) _ _ =>
      eapply runs_call; [cbn [base whole]; eassumption | run_alloc]
  | |- runs (np_copy _) _ _ =>
      eapply runs_call; [cbn [base whole]; eassumption | run_alloc]
  | |- runs (np_ones _ _) _ _ => apply runs_alloc; run_alloc
  | |- runs (load _) _ _ =>
      eapply runs_load; [cbn [base whole]; eassumption |];
      rewrite ?window_whole
  end.

Section PipelineRuns.
Context `{CV2}.

(** [four_point_transform] has one path: it orders the corners, computes
    the target size and returns what [cv2.warpPerspective] returns. *)
Lemma four_point_transform_eq (σ : store) (image : ndarray) (buf : Image)
    (pts : list point) (tl tr br bl : point) :
  σ !! base image = Some buf →
  order_points pts = Some [tl; tr; br; bl] →
  let out := warp_of (window image buf) [tl; tr; br; bl] tl tr br bl in
  let l := fresh (dom σ) in
  four_point_transform image pts σ = Some (whole l out, <[l := out]> σ).
Proof.
  intros Hbuf Hrect. unfold four_point_transform, call, load, lift.
  cbv [mbind M_bind mret M_ret]. rewrite Hrect. cbn. rewrite Hbuf. reflexivity.
Qed.

Lemma four_point_transform_runs (σ : store) (image : ndarray) (buf : Image)
    (pts : list point) :
  σ !! base image = Some buf → pts ≠ [] →
  runs (four_point_transform image pts) σ (fun out σ' =>
    σ ⊆ σ' ∧ warped_from σ σ' (window image buf) pts out).
Proof.
  intros Hbuf Hne.
  destruct (order_points_extremes pts Hne) as (rect & Hrect & Hord).
  pose proof Hord as (tl & tr & br & bl & -> & _).
  eexists _, _. split; [by eapply four_point_transform_eq|].
  pose proof (is_fresh (dom σ)) as Hl.
  split; [apply insert_subseteq; by apply not_elem_of_dom|].
  exists tl, tr, br, bl. cbn [base whole]. rewrite lookup_insert_eq. done.
Qed.

(** A warp made from a later store is also new for an earlier one. *)
Lemma warped_from_weaken (σ0 σ σ' : store) (v : Image) (pts : list point)
    (out : ndarray) :
  σ0 ⊆ σ → warped_from σ σ' v pts out → warped_from σ0 σ' v pts out.
Proof.
  intros Hsub (tl & tr & br & bl & Hrect & Hord & Hfresh & Hout & Hlook).
  exists tl, tr, br, bl. split_and!; try done. by eapply fresh_weaken.
Qed.

Lemma detect_document_edges_alternative_runs (σ : store) (image : ndarray)
    (buf : Image) :
  σ !! base image = Some buf →
  runs (detect_document_edges_alternative image) σ (fun r σ' =>
    alternative_result σ image (window image buf) r.1 r.2 σ').
Proof.
  intros Hbuf. assert (σ ⊆ σ) as Hsub by done. revert Hsub Hbuf.
  generalize σ at 2 3 4 as σ1. intros σ1 Hsub Hbuf.
  unfold detect_document_edges_alternative, alternative_result.
  destruct (shape image) as [h w].
  do 4 (run_step; run_step). run_step. run_step.
  fold (hough_lines (window image buf)).
  destruct (at_least_4_lines (hough_lines (window image buf))).
  - run_step.
    eapply runs_mono.
    { eapply four_point_transform_runs; [cbn [base whole]; eassumption | done]. }
    intros out σ' (Hext & Hw). apply runs_ret. cbn [fst snd].
    rewrite window_whole in Hw.
    split_and!; [by etrans | done | by eapply warped_from_weaken].
  - run_step. cbn [fst snd]. done.
Qed.
End PipelineRuns.

Section DetectRuns.
Context `{CV2}.

Lemma detect_document_edges_runs (σ : store) (image : ndarray) (buf : Image) :
  σ !! base image = Some buf →
  runs (detect_document_edges image) σ (fun r σ' =>
    detect_result σ (window image buf) r.1 r.2 σ').
Proof.
  intros Hbuf. assert (σ ⊆ σ) as Hsub by done. revert Hsub Hbuf.
  generalize σ at 2 3 4 as σ1. intros σ1 Hsub Hbuf.
  unfold detect_document_edges, detect_result.
  do 13 (run_step; run_step).
  change (replicate 3 (replicate 3 (Gray 1))) with kernel3.
  fold (edge_map (window image buf)).
  fold (select_document (findContours (edge_map (window image buf))
                           RETR_EXTERNAL CHAIN_APPROX_SIMPLE)).
  fold (document_contour (window image buf)).
  destruct (document_contour (window image buf)) as [approx|] eqn:Hdoc.
  - pose proof (select_document_length _ _ Hdoc) as Hlen.
    assert (reshape_4_2 approx = Some approx) as Hreshape.
    { unfold reshape_4_2. by rewrite Hlen. }
    run_step. eapply runs_lift; [done|]. run_step.
    eapply runs_mono.
    { eapply four_point_transform_runs; [cbn [base whole]; eassumption|].
      by destruct approx. }
    intros out σ' (Hext & Hw). run_step. eapply runs_lift; [done|].
    run_step. cbn [fst snd]. rewrite window_whole in Hw.
    split_and!; [by etrans | | done | by eapply warped_from_weaken].
    destruct Hw as (? & ? & ? & ? & _ & _ & Hfr & _). by eapply fresh_weaken.
  - eapply runs_mono.
    { eapply detect_document_edges_alternative_runs. cbn [base whole]. eassumption. }
    intros [out corners] σ' Halt. cbn [fst snd] in *. rewrite window_whole in Halt.
    pose proof Halt as Halt'. unfold alternative_result in Halt'.
    destruct (shape _) as [h w]. destruct Halt' as [Hext Hcase].
    split_and!; [by etrans | |].
    + destruct (at_least_4_lines _).
      * destruct Hcase as (_ & ? & ? & ? & ? & _ & _ & Hfr & _).
        by eapply fresh_weaken.
      * destruct Hcase as [_ ->]. done.
    + lazymatch type of Halt with
      | alternative_result ?s ?o _ _ _ _ => exists o, s
      end.
      cbn [base whole]. split_and!; try done. by eapply lookup_weaken.
Qed.

Lemma enhance_document_runs (σ : store) (image : ndarray) (buf : Image) :
  σ !! base image = Some buf →
  runs (enhance_document image) σ (fun out σ' =>
    σ ⊆ σ' ∧ (base out ∉ dom σ) ∧
    let v := window image buf in
    let result := cvtColor (bilateralFilter (clahe_apply (2 # 1) (8, 8)
                    (cvtColor v COLOR_BGR2GRAY)) 9 75 75) COLOR_GRAY2BGR in
    out = whole (base out) result ∧ σ' !! base out = Some result).
Proof.
  intros Hbuf. assert (σ ⊆ σ) as Hsub by done. revert Hsub Hbuf.
  generalize σ at 2 3 4 as σ1. intros σ1 Hsub Hbuf.
  unfold enhance_document.
  do 4 (run_step; run_step). run_step. cbn [base whole]. done.
Qed.
End DetectRuns.

(** ** The outcome of detection, by tier *)

Lemma runs_both {A} (m : M A) (σ : store) (Q Q' : A → store → Prop) :
  runs m σ Q → runs m σ Q' → runs m σ (fun x σ' => Q x σ' ∧ Q' x σ').
Proof.
  intros (x & σ' & Hm & HQ) (x' & σ'' & Hm' & HQ').
  rewrite Hm in Hm'. injection Hm' as <- <-. by exists x, σ'.
Qed.

Lemma shape_whole (l : addr) (v : Image) : shape (whole l v) = dims v.
Proof. reflexivity. Qed.

Lemma max_list_constant (n : nat) (l : list nat) :
  l ≠ [] → Forall (fun k => k = n) l → max_list l = n.
Proof.
  intros Hne Hall. induction Hall as [|k l -> Hall IH]; [done|].
  cbn. destruct l as [|k' l']; [cbn; lia|]. rewrite IH by done. lia.
Qed.

(** A non-empty window that lies inside its buffer shows as many rows and
    columns as the array says. *)
Lemma dims_window (a : ndarray) (buf : Image) :
  in_bounds a buf → (0 < nrows a)%nat → dims (window a buf) = shape a.
Proof.
  intros [Hrows Hcols] Hpos. unfold dims, shape, window.
  assert (length (take (nrows a) (drop (row_off a) buf)) = nrows a) as Hlen.
  { rewrite length_take, length_drop. lia. }
  rewrite length_map, Hlen. f_equal. f_equal.
  apply max_list_constant.
  - destruct (take (nrows a) (drop (row_off a) buf)); [cbn in Hlen; lia | done].
  - apply Forall_fmap, Forall_fmap. apply Forall_forall. intros row Hrow. cbn.
    assert (row ∈ buf) as Hin.
    { eapply subseteq_drop, subseteq_take. done. }
    eapply Forall_forall in Hcols; [|done].
    rewrite length_take, length_drop. lia.
Qed.

Section Outcome.
Context `{CV2}.

Lemma detect_document_edges_outcome (σ : store) (image : ndarray) (buf : Image) :
  σ !! base image = Some buf →
  runs (detect_document_edges image) σ (fun r σ' =>
    σ ⊆ σ' ∧ (base r.1 ∉ dom σ) ∧
    ∃ res, σ' !! base r.1 = Some res ∧
      tier_outcome (window image buf) r.1 res r.2).
Proof.
  intros Hbuf. eapply runs_mono; [by apply detect_document_edges_runs|].
  intros [out corners] σ' (Hsub & Hfresh & Hcase). cbn [fst snd] in *.
  split_and!; [done | done |].
  unfold tier_outcome, source_of. destruct (dims _) as [h w] eqn:Hdims.
  destruct (document_contour (window image buf)) as [approx|] eqn:Hdoc.
  - destruct Hcase as (-> & tl & tr & br & bl & Hrect & _ & _ & Hout & Hres).
    eexists. split; [done|]. split_and!; [done | |].
    { by eapply select_document_length. }
    exists tl, tr, br, bl. split_and!; [done | | done].
    rewrite Hout at 1. cbn [base whole]. done.
  - destruct Hcase as (original & σ1 & Horig & Hfr & Hlook & Hsub1 & Halt).
    unfold alternative_result in Halt. rewrite Horig, shape_whole, Hdims in Halt.
    destruct Halt as [Hext Halt].
    destruct (at_least_4_lines (hough_lines (window image buf))).
    + destruct Halt as (-> & tl & tr & br & bl & Hrect & _ & _ & Hout & Hres).
      eexists. split; [done|]. split; [done|].
      exists tl, tr, br, bl. split_and!; [done | | done].
      rewrite Hout at 1. cbn [base whole]. done.
    + destruct Halt as (-> & ->). cbn [base slice2 whole].
      exists (window image buf). split_and!; try done.
Qed.
End Outcome.

(** ** Corner ordering *)

(** C1, as specified, fails: on the convex quadrilateral of the end-to-end
    scenario, whose four vertices are distinct, the second corner returned
    has the largest [x - y], not the smallest. *)
Lemma order_points_x_minus_y_fails :
  convex_quad scenario_pts = true ∧ NoDup scenario_pts ∧
  ∃ rect, order_points scenario_pts = Some rect ∧
    ¬ ordering_by_x_minus_y scenario_pts rect.
Proof.
  split; [reflexivity|]. split; [compute_done|].
  eexists. split; [reflexivity|].
  intros (tl & tr & br & bl & [= <- <- <- <-] & Hall).
  destruct (Hall (120, 720)) as (_ & _ & Htr & _); [compute_done|].
  cbn in Htr. lia.
Qed.

(** C1, amended: for any four points, in whatever order they are given,
    [order_points] returns rows [tl, tr, br, bl] of the input such that [tl]
    has the least and [br] the greatest sum [x + y], and [tr] has the least
    and [bl] the greatest difference [y - x]. *)
Theorem order_points_ordering (pts pts' : list point) :
  length pts = 4%nat → pts' ≡ₚ pts →
  ∃ rect, order_points pts' = Some rect ∧ ordering_by_y_minus_x pts rect.
Proof.
  intros Hlen Hperm.
  destruct (order_points_extremes pts') as (rect & Hrect & Hord).
  { intros ->. apply Permutation_nil_l in Hperm. by subst. }
  exists rect. split; [done|].
  destruct Hord as (tl & tr & br & bl & -> & Htl & Htr & Hbr & Hbl & Hall).
  exists tl, tr, br, bl. split_and!; try done; try by rewrite <- Hperm.
  intros q Hq. rewrite <- Hperm in Hq. by apply Hall.
Qed.

Lemma order_points_ordering_witness :
  length scenario_pts = 4%nat ∧
  [ (880, 750); (900, 80); (100, 50); (120, 720) ] ≡ₚ scenario_pts ∧
  ∃ rect,
    order_points [ (880, 750); (900, 80); (100, 50); (120, 720) ] = Some rect ∧
    ordering_by_y_minus_x scenario_pts rect.
Proof.
  assert ([ ((880, 750) : point); (900, 80); (100, 50); (120, 720) ] ≡ₚ scenario_pts)
    as Hperm.
  { unfold scenario_pts.
    apply (Permutation_trans
             (l' := [ (900, 80); (880, 750); (100, 50); (120, 720) ]));
      [apply perm_swap|].
    apply (Permutation_trans
             (l' := [ (900, 80); (100, 50); (880, 750); (120, 720) ]));
      [apply perm_skip, perm_swap|].
    apply perm_swap. }
  split; [reflexivity|]. split; [exact Hperm|].
  apply (order_points_ordering scenario_pts
           [ (880, 750); (900, 80); (100, 50); (120, 720) ]);
    [reflexivity | exact Hperm].
Defined.

(** C10: on the four distinct corners of the tilted square, [(5, 0)] has
    both the least sum and the least difference; it fills two slots of the
    output, [(0, 5)] fills none, and the output is not a permutation of the
    input. *)
Theorem order_points_not_permutation :
  NoDup diamond_pts ∧
  (∀ q, q ∈ diamond_pts →
     px (5, 0) + py (5, 0) <= px q + py q ∧ py (5, 0) - px (5, 0) <= py q - px q) ∧
  ∃ rect,
    order_points diamond_pts = Some rect ∧
    rect = [ (5, 0); (5, 0); (10, 5); (5, 10) ] ∧
    (0, 5) ∈ diamond_pts ∧ ((0, 5) ∉ rect) ∧
    ¬ rect ≡ₚ diamond_pts.
Proof.
  split; [compute_done|]. split.
  { intros q Hq. unfold diamond_pts in Hq.
    repeat (apply elem_of_cons in Hq as [->|Hq]); cbn; try lia.
    by apply elem_of_nil in Hq. }
  eexists. split; [reflexivity|]. split; [reflexivity|].
  split; [compute_done|]. split; [compute_done|].
  intros Hperm. assert ((0, 5) ∈ [ ((5, 0) : point); (5, 0); (10, 5); (5, 10) ]) as Hin.
  { rewrite Hperm. compute_done. }
  revert Hin. compute_done.
Qed.

(** ** Target size *)

Lemma edge_len_square (a b : point) (d : Z) :
  0 <= d → (px a - px b) ^ 2 + (py a - py b) ^ 2 = d * d → edge_len a b = d.
Proof. intros Hd Heq. unfold edge_len. rewrite Heq. by apply Z.sqrt_square. Qed.

(** Two points with integer coordinates are less than one pixel apart only
    when they coincide. *)
Lemma edge_len_zero (a b : point) : edge_len a b = 0 ↔ a = b.
Proof.
  unfold edge_len. destruct a as [ax ay], b as [bx by']. cbn [px py fst snd].
  split.
  - intros Hz.
    assert ((ax - bx) ^ 2 + (ay - by') ^ 2 < 1 * 1) as Hlt.
    { apply Z.sqrt_lt_square; [nia | lia | lia]. }
    assert (ax - bx = 0) by nia. assert (ay - by' = 0) by nia.
    f_equal; lia.
  - intros [= -> ->]. by rewrite !Z.sub_diag.
Qed.

(** The corners of an axis-aligned rectangle are ordered as top-left,
    top-right, bottom-right, bottom-left, whatever their order on input. *)
Lemma order_points_rectangle (x0 y0 W H : Z) (pts : list point) :
  0 < W → 0 < H → pts ≡ₚ rect_corners x0 y0 W H →
  order_points pts = Some (rect_corners x0 y0 W H).
Proof.
  intros HW HH Hperm.
  assert (∀ q, q ∈ pts →
            q = (x0, y0) ∨ q = (x0 + W, y0) ∨ q = (x0 + W, y0 + H) ∨ q = (x0, y0 + H))
    as Hcases.
  { intros q Hq. rewrite Hperm in Hq. unfold rect_corners in Hq.
    repeat (apply elem_of_cons in Hq as [->|Hq]); auto.
    by apply elem_of_nil in Hq. }
  assert (∀ q, q ∈ rect_corners x0 y0 W H → q ∈ pts) as Hin.
  { intros q Hq. by rewrite Hperm. }
  destruct (argmin_key_unique (fun p => px p + py p) pts (x0, y0)) as (i0 & H0 & Hp0).
  { apply Hin. unfold rect_corners; apply list_elem_of_here. }
  { intros q Hq Hne. destruct (Hcases q Hq) as [-> | [-> | [-> | ->]]]; cbn; try lia; done. }
  destruct (argmax_key_unique (fun p => px p + py p) pts (x0 + W, y0 + H))
    as (i2 & H2 & Hp2).
  { apply Hin. unfold rect_corners. do 2 apply list_elem_of_further.
    apply list_elem_of_here. }
  { intros q Hq Hne. destruct (Hcases q Hq) as [-> | [-> | [-> | ->]]]; cbn; try lia; done. }
  destruct (argmin_key_unique (fun p => py p - px p) pts (x0 + W, y0)) as (i1 & H1 & Hp1).
  { apply Hin. unfold rect_corners. apply list_elem_of_further, list_elem_of_here. }
  { intros q Hq Hne. destruct (Hcases q Hq) as [-> | [-> | [-> | ->]]]; cbn; try lia; done. }
  destruct (argmax_key_unique (fun p => py p - px p) pts (x0, y0 + H)) as (i3 & H3 & Hp3).
  { apply Hin. unfold rect_corners. do 3 apply list_elem_of_further.
    apply list_elem_of_here. }
  { intros q Hq Hne. destruct (Hcases q Hq) as [-> | [-> | [-> | ->]]]; cbn; try lia; done. }
  by eapply order_points_rows.
Qed.

Lemma target_size_ordered (pts : list point) (tl tr br bl : point) :
  order_points pts = Some [tl; tr; br; bl] →
  target_size pts = Some (max_width tl tr br bl, max_height tl tr br bl).
Proof. intros Hrect. unfold target_size. by rewrite Hrect. Qed.

Lemma target_size_rectangle (x0 y0 W H : Z) (pts : list point) :
  0 < W → 0 < H → pts ≡ₚ rect_corners x0 y0 W H → target_size pts = Some (W, H).
Proof.
  intros HW HH Hperm.
  rewrite (target_size_ordered pts (x0, y0) (x0 + W, y0) (x0 + W, y0 + H) (x0, y0 + H));
    [|by apply order_points_rectangle].
  unfold max_width, max_height.
  rewrite (edge_len_square (x0 + W, y0 + H) (x0, y0 + H) W) by (cbn; lia).
  rewrite (edge_len_square (x0 + W, y0) (x0, y0) W) by (cbn; lia).
  rewrite (edge_len_square (x0 + W, y0) (x0 + W, y0 + H) H) by (cbn; lia).
  rewrite (edge_len_square (x0, y0) (x0, y0 + H) H) by (cbn; lia).
  by rewrite !Z.max_id.
Qed.

(** ** The perspective rectifier *)

(** C6: for the four corners of an axis-aligned rectangle of width [W] and
    height [H], given in any order, the target size is exactly [(W, H)]: the
    corners are ordered, the destination rectangle is
    [(0,0), (W-1,0), (W-1,H-1), (0,H-1)], and the result is the image
    [cv2.warpPerspective] returns for the size [(W, H)].  In general the
    width is the larger of the two truncated horizontal edge lengths and
    the height the larger of the two truncated vertical edge lengths. *)
Theorem four_point_transform_rectangle {cv : CV2} (σ : store) (image : ndarray)
    (buf : Image) (x0 y0 W H : Z) (pts : list point) :
  σ !! base image = Some buf → 0 < W → 0 < H →
  pts ≡ₚ rect_corners x0 y0 W H →
  order_points pts = Some (rect_corners x0 y0 W H) ∧
  target_size pts = Some (W, H) ∧
  W = Z.max (edge_len (x0 + W, y0 + H) (x0, y0 + H)) (edge_len (x0 + W, y0) (x0, y0)) ∧
  H = Z.max (edge_len (x0 + W, y0) (x0 + W, y0 + H)) (edge_len (x0, y0) (x0, y0 + H)) ∧
  let out := warpPerspective (window image buf)
               (getPerspectiveTransform (rect_corners x0 y0 W H) (dst_rect W H))
               (W, H) in
  let l := fresh (dom σ) in
  four_point_transform image pts σ = Some (whole l out, <[l := out]> σ).
Proof.
  intros Hbuf HW HH Hperm.
  pose proof (order_points_rectangle x0 y0 W H pts HW HH Hperm) as Hrect.
  pose proof (target_size_rectangle x0 y0 W H pts HW HH Hperm) as Hsize.
  pose proof Hsize as Hsize'.
  rewrite (target_size_ordered _ _ _ _ _ Hrect) in Hsize'.
  injection Hsize' as Hw Hh.
  split_and!; [done | done | symmetry; exact Hw | symmetry; exact Hh |].
  cbn zeta. rewrite (four_point_transform_eq σ image buf pts _ _ _ _ Hbuf Hrect).
  unfold warp_of. by rewrite Hw, Hh.
Qed.

Lemma four_point_transform_rectangle_witness :
  let cv := stand_in [] None in
  let pts := [ (40, 25); (10, 5); (10, 25); (40, 5) ] in
  just white_20 !! base (whole 0 white_20) = Some white_20 ∧ 0 < 30 ∧ 0 < 20 ∧
  pts ≡ₚ rect_corners 10 5 30 20 ∧
  target_size pts = Some (30, 20).
Proof.
  intros cv pts.
  assert (pts ≡ₚ rect_corners 10 5 30 20) as Hperm.
  { unfold pts, rect_corners. cbn.
    apply (Permutation_trans (l' := [ (10, 5); (40, 25); (10, 25); (40, 5) ]));
      [apply perm_swap|]. apply perm_skip.
    apply (Permutation_trans (l' := [ (40, 25); (40, 5); (10, 25) ]));
      [apply perm_skip, perm_swap|].
    apply (Permutation_trans (l' := [ (40, 5); (40, 25); (10, 25) ]));
      [apply perm_swap|]. apply Permutation_refl. }
  split; [reflexivity|]. split; [lia|]. split; [lia|]. split; [exact Hperm|].
  apply (four_point_transform_rectangle (just white_20) (whole 0 white_20) white_20
           10 5 30 20 pts); [reflexivity | lia | lia | exact Hperm].
Defined.

(** C7, as specified, fails: the width computed for the scenario is not
    within a pixel of 780. *)
Lemma scenario_width_is_not_780 : ¬ scenario_as_specified.
Proof.
  intros (_ & w & h & Hsize & Hw & _).
  vm_compute in Hsize. injection Hsize as <- <-.
  unfold near in Hw. lia.
Qed.

(** C7, amended: for the corners (100,50), (900,80), (880,750), (120,720)
    the ordering is tl = (100,50), tr = (900,80), br = (880,750),
    bl = (120,720); the truncated edge lengths are 760 (bottom), 800 (top),
    670 (right) and 670 (left); the target size is 800 by 670. *)
Theorem scenario_corners_and_size :
  order_points scenario_pts = Some [ (100, 50); (900, 80); (880, 750); (120, 720) ] ∧
  edge_len (880, 750) (120, 720) = 760 ∧ edge_len (900, 80) (100, 50) = 800 ∧
  edge_len (900, 80) (880, 750) = 670 ∧ edge_len (100, 50) (120, 720) = 670 ∧
  target_size scenario_pts = Some (800, 670).
Proof. split_and!; reflexivity. Qed.

Lemma edge_len_nonneg (a b : point) : 0 <= edge_len a b.
Proof. apply Z.sqrt_nonneg. Qed.

Lemma max_width_zero (tl tr br bl : point) :
  max_width tl tr br bl = 0 ↔ br = bl ∧ tr = tl.
Proof.
  unfold max_width. rewrite <- !edge_len_zero.
  pose proof (edge_len_nonneg br bl). pose proof (edge_len_nonneg tr tl). lia.
Qed.

Lemma max_height_zero (tl tr br bl : point) :
  max_height tl tr br bl = 0 ↔ tr = br ∧ tl = bl.
Proof.
  unfold max_height. rewrite <- !edge_len_zero.
  pose proof (edge_len_nonneg tr br). pose proof (edge_len_nonneg tl bl). lia.
Qed.

(** C2, as specified, fails: four distinct points on a vertical line give a
    target width of 0, and [four_point_transform] still returns what the
    warp returns, not a crop of its input. *)
Lemma four_point_transform_no_degenerate_guard :
  NoDup collinear_pts ∧ target_size collinear_pts = Some (0, 10) ∧
  ¬ (∀ cv : CV2, @degenerate_falls_back cv).
Proof.
  split; [compute_done|]. split; [reflexivity|]. intros Hguard.
  pose proof (Hguard (stand_in [] None)) as Hg. unfold degenerate_falls_back in Hg.
  destruct (Hg (just white_20) (whole 0 white_20) white_20
              collinear_pts 0 10) as (out & σ' & Hrun & res & Hres & Hcrop);
    [reflexivity | reflexivity | reflexivity | by left |].
  clear Hguard Hg.
  rewrite (four_point_transform_eq (H := stand_in [] None) (just white_20)
             (whole 0 white_20) white_20 collinear_pts (5, 0) (5, 0) (5, 10) (5, 10))
    in Hrun; [|reflexivity|reflexivity].
  injection Hrun as <- <-. cbn [base whole] in Hres.
  rewrite lookup_insert_eq in Hres. injection Hres as <-.
  rewrite !window_whole in Hcrop.
  destruct Hcrop as [Hcrop|Hcrop]; vm_compute in Hcrop; discriminate Hcrop.
Qed.

(** C2, amended: [four_point_transform] has no guard.  For any four points
    it orders them, computes the target size and returns the image
    [cv2.warpPerspective] returns for that size, whatever the size is; the
    width is 0 exactly when the two bottom corners coincide and the two top
    corners coincide, the height is 0 exactly when the two right corners
    coincide and the two left corners coincide. *)
Theorem four_point_transform_unguarded `{CV2} (σ : store) (image : ndarray)
    (buf : Image) (pts : list point) :
  σ !! base image = Some buf → length pts = 4%nat →
  ∃ tl tr br bl w h,
    order_points pts = Some [tl; tr; br; bl] ∧
    target_size pts = Some (w, h) ∧
    (w = 0 ↔ br = bl ∧ tr = tl) ∧ (h = 0 ↔ tr = br ∧ tl = bl) ∧
    let out := warpPerspective (window image buf)
                 (getPerspectiveTransform [tl; tr; br; bl] (dst_rect w h)) (w, h) in
    let l := fresh (dom σ) in
    four_point_transform image pts σ = Some (whole l out, <[l := out]> σ).
Proof.
  intros Hbuf Hlen.
  destruct (order_points_extremes pts) as (rect & Hrect & Hord).
  { intros ->. done. }
  destruct Hord as (tl & tr & br & bl & -> & _).
  exists tl, tr, br, bl, (max_width tl tr br bl), (max_height tl tr br bl).
  split_and!; [done | by apply target_size_ordered | apply max_width_zero
              | apply max_height_zero |].
  cbn zeta. by rewrite (four_point_transform_eq σ image buf pts _ _ _ _ Hbuf Hrect).
Qed.

Lemma four_point_transform_unguarded_witness :
  let cv := stand_in [] None in
  just white_20 !! base (whole 0 white_20) = Some white_20 ∧
  length collinear_pts = 4%nat ∧
  ∃ tl tr br bl w h,
    order_points collinear_pts = Some [tl; tr; br; bl] ∧
    target_size collinear_pts = Some (w, h) ∧
    (w = 0 ↔ br = bl ∧ tr = tl) ∧ (h = 0 ↔ tr = br ∧ tl = bl) ∧
    let out := warpPerspective (window (whole 0 white_20) white_20)
                 (getPerspectiveTransform [tl; tr; br; bl] (dst_rect w h)) (w, h) in
    let l := fresh (dom (just white_20)) in
    four_point_transform (whole 0 white_20) collinear_pts (just white_20)
      = Some (whole l out, <[l := out]> (just white_20)).
Proof.
  intros cv. split; [reflexivity|]. split; [reflexivity|].
  apply (four_point_transform_unguarded (just white_20) (whole 0 white_20) white_20
           collinear_pts); reflexivity.
Defined.

(** Degenerate sizes do not need collinear points: on a convex
    quadrilateral standing on a vertex the top vertex is taken both as
    top-left and as top-right, the bottom vertex both as bottom-right and
    as bottom-left, and the computed width is 0. *)
Lemma tall_diamond_has_zero_width :
  convex_quad tall_diamond = true ∧
  order_points tall_diamond = Some [ (100, 0); (100, 0); (100, 300); (100, 300) ] ∧
  target_size tall_diamond = Some (0, 300).
Proof. split_and!; reflexivity. Qed.

(** ** Contour selection *)

Section SelectionClaims.
Context `{CV2}.

(** In a list of non-increasing area, a qualifying contour that is
    strictly larger than every other contour is the one the loop stops
    at. *)
Lemma find_document_largest (l : list contour) (c : contour) :
  area_descending l → c ∈ l → qualifies c = true →
  (∀ d, d ∈ l → d ≠ c → (contourArea d < contourArea c)%Q) →
  find_document l = Some (approx_of c).
Proof.
  intros Hsorted Hc Hq Hlarger.
  induction Hsorted as [|d l Hl IH Hd]; [by apply elem_of_nil in Hc|].
  cbn. destruct (decide (d = c)) as [->|Hne]; [by rewrite Hq|].
  apply elem_of_cons in Hc as [->|Hc]; [done|].
  exfalso. eapply Forall_forall in Hd; [|exact Hc]. cbn in Hd.
  eapply Qlt_not_le; [|exact Hd].
  apply Hlarger; [apply list_elem_of_here | done].
Qed.

(** Whatever is selected comes from a qualifying contour of the input,
    and no qualifying contour of the input has a larger area. *)
Lemma select_document_is_largest (contours : list contour) (a : contour) :
  select_document contours = Some a →
  ∃ c, c ∈ contours ∧ qualifies c = true ∧ a = approx_of c ∧
    ∀ d, d ∈ contours → qualifies d = true → (contourArea d <= contourArea c)%Q.
Proof.
  unfold select_document. intros (l1 & c & l2 & Heq & Hl1 & Hc & ->)%find_document_Some.
  pose proof (sorted_by_area_sorted contours) as Hsorted.
  pose proof (sorted_by_area_perm contours) as Hperm.
  rewrite Heq in Hsorted, Hperm.
  exists c. split_and!; try done.
  { rewrite <- Hperm. apply elem_of_app. right. apply list_elem_of_here. }
  intros d Hd Hqd. rewrite <- Hperm in Hd.
  apply elem_of_app in Hd as [Hd|Hd].
  - eapply Forall_forall in Hl1; [|exact Hd]. cbn in Hl1. congruence.
  - apply elem_of_cons in Hd as [->|Hd]; [apply Qle_refl|].
    unfold area_descending in Hsorted.
    apply StronglySorted_app_1_r in Hsorted.
    apply StronglySorted_inv in Hsorted as [_ Hall].
    eapply Forall_forall in Hall; [|exact Hd]. done.
Qed.
End SelectionClaims.

(** C5: the contours are visited in order of non-increasing area (a
    reordering of the input), each is approximated with tolerance 0.02 times
    its perimeter, and the first whose approximation has 4 vertices and
    whose area exceeds 10000 is taken.  So when the candidates contain a
    qualifying contour that is strictly larger than every other candidate,
    its approximation is selected, in whatever order the candidates are
    listed. *)
Theorem select_document_largest_quad `{CV2} (contours contours' : list contour)
    (c : contour) :
  contours' ≡ₚ contours → c ∈ contours → qualifies c = true →
  (∀ d, d ∈ contours → d ≠ c → (contourArea d < contourArea c)%Q) →
  sorted_by_area contours' ≡ₚ contours ∧
  area_descending (sorted_by_area contours') ∧
  (∀ a, select_document contours' = Some a ↔
     ∃ l1 d l2, sorted_by_area contours' = l1 ++ d :: l2 ∧
       Forall (fun e => qualifies e = false) l1 ∧ qualifies d = true ∧
       a = approxPolyDP d ((2 # 100) * arcLength d true)%Q true) ∧
  select_document contours' =
    Some (approxPolyDP c ((2 # 100) * arcLength c true)%Q true) ∧
  length (approxPolyDP c ((2 # 100) * arcLength c true)%Q true) = 4%nat ∧
  (10000 # 1 < contourArea c)%Q.
Proof.
  intros Hperm Hc Hq Hlarger.
  pose proof (sorted_by_area_perm contours') as Hsp.
  split_and!.
  - by rewrite Hsp.
  - apply sorted_by_area_sorted.
  - intros a. apply find_document_Some.
  - unfold select_document. apply find_document_largest; [| |done|].
    + apply sorted_by_area_sorted.
    + by rewrite Hsp, Hperm.
    + intros d Hd. apply Hlarger. by rewrite <- Hperm, <- Hsp.
  - by apply qualifies_spec in Hq as [? _].
  - by apply qualifies_spec in Hq as [_ ?].
Qed.

Lemma select_document_largest_quad_witness :
  let cv := stand_in [] None in
  let listed := [ small_square; large_quad; small_triangle ] in
  let shuffled := [ small_triangle; small_square; large_quad ] in
  shuffled ≡ₚ listed ∧ large_quad ∈ listed ∧ qualifies large_quad = true ∧
  (∀ d, d ∈ listed → d ≠ large_quad → (contourArea d < contourArea large_quad)%Q) ∧
  select_document shuffled = Some large_quad.
Proof.
  intros cv listed shuffled.
  assert (shuffled ≡ₚ listed) as Hperm.
  { unfold shuffled, listed.
    apply (Permutation_trans (l' := [ small_square; small_triangle; large_quad ]));
      [apply perm_swap | apply perm_skip, perm_swap]. }
  assert (∀ d, d ∈ listed → d ≠ large_quad →
            (contourArea d < contourArea large_quad)%Q) as Hlarger.
  { intros d Hd Hne. unfold listed in Hd.
    repeat (apply elem_of_cons in Hd as [-> | Hd]); try done.
    by apply elem_of_nil in Hd. }
  split; [exact Hperm|]. split; [compute_done|]. split; [reflexivity|].
  split; [exact Hlarger|].
  destruct (select_document_largest_quad listed shuffled large_quad)
    as (_ & _ & _ & Hsel & _);
    [exact Hperm | compute_done | reflexivity | exact Hlarger |].
  exact Hsel.
Defined.

(** ** The detection pipeline *)

Lemma padded_corners_length (h w p : Z) : length (padded_corners h w p) = 4%nat.
Proof. reflexivity. Qed.

Lemma tier_outcome_length `{CV2} (v : Image) (out : ndarray) (res : Image)
    (corners : list point) :
  tier_outcome v out res corners → length corners = 4%nat.
Proof.
  unfold tier_outcome. destruct (dims v) as [h w].
  destruct (source_of v).
  - by intros (_ & Hlen & _).
  - by intros (-> & _).
  - by intros (-> & _).
Qed.

Lemma source_of_no_contour `{CV2} (v : Image) :
  document_contour v = None →
  source_of v = LineEstimate ∨ source_of v = PaddedFallback.
Proof.
  intros Hdoc. unfold source_of. rewrite Hdoc.
  destruct (at_least_4_lines _); auto.
Qed.

(** C3: on every input array that refers to a buffer of the store,
    [detect_document_edges] returns; what it returns has exactly four
    corners and an image backed by a buffer of the final store.  When no
    contour qualifies, the corners are those of the line-estimate tier or
    of the padded-crop tier. *)
Theorem detect_document_edges_always_returns `{CV2} (σ : store) (image : ndarray)
    (buf : Image) :
  σ !! base image = Some buf →
  ∃ out corners σ',
    detect_document_edges image σ = Some ((out, corners), σ') ∧
    length corners = 4%nat ∧ is_Some (σ' !! base out) ∧
    (document_contour (window image buf) = None →
       let '(h, w) := dims (window image buf) in
       (source_of (window image buf) = LineEstimate ∧
        corners = padded_corners h w (Z.min h w `div` 20)) ∨
       (source_of (window image buf) = PaddedFallback ∧
        corners = padded_corners h w (Z.min h w `div` 40))).
Proof.
  intros Hbuf.
  destruct (detect_document_edges_outcome σ image buf Hbuf)
    as ([out corners] & σ' & Hrun & _ & _ & res & Hres & Hout).
  cbn [fst snd] in *. exists out, corners, σ'.
  split_and!; [done | by eapply tier_outcome_length | by eexists |].
  intros Hdoc. unfold tier_outcome in Hout.
  destruct (dims (window image buf)) as [h w].
  destruct (source_of_no_contour _ Hdoc) as [Hsrc|Hsrc]; rewrite Hsrc in Hout.
  - left. by destruct Hout as (-> & _).
  - right. by destruct Hout as (-> & _).
Qed.

Lemma detect_document_edges_always_returns_witness :
  let cv := stand_in [] None in
  just black_10 !! base (whole 0 black_10) = Some black_10 ∧
  ∃ out corners σ',
    detect_document_edges (whole 0 black_10) (just black_10)
      = Some ((out, corners), σ') ∧
    length corners = 4%nat ∧ is_Some (σ' !! base out).
Proof.
  intros cv. split; [reflexivity|].
  destruct (detect_document_edges_always_returns (just black_10) (whole 0 black_10)
              black_10) as (out & corners & σ' & Hrun & Hlen & Hsome & _);
    [reflexivity|].
  exists out, corners, σ'. split; [exact Hrun|]. split; [exact Hlen | exact Hsome].
Defined.




(** The last tier, for an input of any shape: the corners are inset by
    [min(h, w) // 40] and the image returned is the slice between them of
    the copy made on entry. *)
Lemma detect_document_edges_padded `{CV2} (σ : store) (image : ndarray)
    (buf : Image) :
  σ !! base image = Some buf → in_bounds image buf → (0 < nrows image)%nat →
  document_contour (window image buf) = None →
  at_least_4_lines (hough_lines (window image buf)) = false →
  runs (detect_document_edges image) σ (fun r σ' =>
    let '(h, w) := shape image in
    let padding := Z.min h w `div` 40 in
    r.2 = padded_corners h w padding ∧
    dims (window image buf) = (h, w) ∧
    (base r.1 ∉ dom σ) ∧ σ' !! base r.1 = Some (window image buf) ∧
    r.1 = slice2 (whole (base r.1) (window image buf))
            padding (h - padding) padding (w - padding)).
Proof.
  intros Hbuf Hin Hpos Hdoc Hlines.
  eapply runs_mono; [by apply detect_document_edges_outcome|].
  intros [out corners] σ' (_ & Hfresh & res & Hres & Hout). cbn [fst snd] in *.
  unfold tier_outcome, source_of in Hout.
  pose proof (dims_window _ _ Hin Hpos) as Hdims.
  rewrite Hdoc, Hlines, Hdims in Hout.
  destruct (shape image) as [h w]. destruct Hout as (-> & -> & Hslice).
  split_and!; done.
Qed.

(** C8, as specified, fails: on a uniform 500 by 500 input on which
    neither a contour nor four lines are found, the crop is not 475 by 475
    and its corners are not at 487. *)
Lemma tier2_crop_is_not_475 :
  (∃ out σ',
     @detect_document_edges (stand_in [] None) (whole 0 gray_500) (just gray_500)
       = Some ((out, [ (12, 12); (488, 12); (488, 488); (12, 488) ]), σ') ∧
     shape out = (476, 476)) ∧
  ¬ tier2_as_specified.
Proof.
  assert (in_bounds (whole 0 gray_500) gray_500) as Hin.
  { split; [vm_compute; lia|]. apply Forall_forall. intros row Hrow.
    apply elem_of_replicate in Hrow as [-> _]. vm_compute. lia. }
  pose proof (detect_document_edges_padded (H := stand_in [] None)
                (just gray_500) (whole 0 gray_500) gray_500
                eq_refl Hin ltac:(vm_compute; lia) eq_refl eq_refl) as Hactual.
  split.
  - destruct Hactual as ([out corners] & σ' & Hrun & Ha).
    cbn [fst snd] in *. change (shape (whole 0 gray_500)) with (500, 500) in Ha.
    destruct Ha as (-> & _ & _ & _ & Hout).
    exists out, σ'. split; [exact Hrun|]. rewrite Hout. reflexivity.
  - intros Hspec.
    pose proof (Hspec (stand_in [] None) (just gray_500) (whole 0 gray_500) gray_500
                  eq_refl Hin eq_refl eq_refl eq_refl) as Hclaimed.
    destruct (runs_both _ _ _ _ Hclaimed Hactual)
      as ([out corners] & σ' & _ & (_ & Hc) & Ha).
    cbn [fst snd] in *. change (shape (whole 0 gray_500)) with (500, 500) in Ha.
    destruct Ha as (Hc' & _). rewrite Hc in Hc'. vm_compute in Hc'. discriminate Hc'.
Qed.

(** C8, amended: on a 500 by 500 input on which neither a contour nor four
    lines are found, the padding is [500 // 40 = 12], the corners returned
    are (12,12), (488,12), (488,488), (12,488), and the image returned is
    the 476 by 476 slice [12:488, 12:488] of the copy of the input. *)
Theorem tier2_crop_of_500 `{CV2} (σ : store) (image : ndarray) (buf : Image) :
  σ !! base image = Some buf → in_bounds image buf →
  shape image = (500, 500) →
  document_contour (window image buf) = None →
  at_least_4_lines (hough_lines (window image buf)) = false →
  500 `div` 40 = 12 ∧
  ∃ out corners σ',
    detect_document_edges image σ = Some ((out, corners), σ') ∧
    corners = [ (12, 12); (488, 12); (488, 488); (12, 488) ] ∧
    shape out = (476, 476) ∧ row_off out = 12%nat ∧ col_off out = 12%nat ∧
    σ' !! base out = Some (window image buf) ∧ (base out ∉ dom σ).
Proof.
  intros Hbuf Hin Hshape Hdoc Hlines. split; [reflexivity|].
  assert (0 < nrows image)%nat as Hpos.
  { unfold shape in Hshape. injection Hshape as Hrows _. lia. }
  destruct (detect_document_edges_padded σ image buf Hbuf Hin Hpos Hdoc Hlines)
    as ([out corners] & σ' & Hrun & Hpost).
  cbn [fst snd] in *. rewrite Hshape in Hpost.
  destruct Hpost as (-> & Hdims & Hfresh & Hres & Hout).
  exists out, (padded_corners 500 500 (Z.min 500 500 `div` 40)), σ'.
  split_and!; try done.
  - rewrite Hout. unfold dims in Hdims. injection Hdims as Hh Hw.
    unfold shape, slice2. cbn [nrows ncols whole].
    replace (length (window image buf)) with 500%nat by lia.
    replace (max_list (length <$> window image buf)) with 500%nat by lia.
    reflexivity.
  - rewrite Hout. unfold dims in Hdims. injection Hdims as Hh Hw.
    unfold slice2. cbn [row_off nrows whole].
    replace (length (window image buf)) with 500%nat by lia. reflexivity.
  - rewrite Hout. unfold dims in Hdims. injection Hdims as Hh Hw.
    unfold slice2. cbn [col_off ncols whole].
    replace (max_list (length <$> window image buf)) with 500%nat by lia.
    reflexivity.
Qed.

Lemma tier2_crop_of_500_witness :
  let cv := stand_in [] None in
  just gray_500 !! base (whole 0 gray_500) = Some gray_500 ∧
  in_bounds (whole 0 gray_500) gray_500 ∧
  shape (whole 0 gray_500) = (500, 500) ∧
  document_contour (window (whole 0 gray_500) gray_500) = None ∧
  at_least_4_lines (hough_lines (window (whole 0 gray_500) gray_500)) = false ∧
  ∃ out corners σ',
    detect_document_edges (whole 0 gray_500) (just gray_500)
      = Some ((out, corners), σ') ∧
    corners = [ (12, 12); (488, 12); (488, 488); (12, 488) ] ∧
    shape out = (476, 476).
Proof.
  intros cv.
  assert (in_bounds (whole 0 gray_500) gray_500) as Hin.
  { split; [vm_compute; lia|]. apply Forall_forall. intros row Hrow.
    apply elem_of_replicate in Hrow as [-> _]. vm_compute. lia. }
  split; [reflexivity|]. split; [exact Hin|]. split; [reflexivity|].
  split; [reflexivity|]. split; [reflexivity|].
  destruct (tier2_crop_of_500 (just gray_500) (whole 0 gray_500) gray_500)
    as (_ & out & corners & σ' & Hrun & Hcorners & Hshape & _);
    [reflexivity | exact Hin | reflexivity | reflexivity | reflexivity |].
  exists out, corners, σ'. split; [exact Hrun|]. split; [exact Hcorners | exact Hshape].
Defined.

(** ** No stage writes to a buffer of its caller *)

(** Called on its own, the alternative detector returns, in its last tier,
    a slice of the very buffer it was given: the model does tell a view
    from a copy. *)
Lemma alternative_crop_shares_buffer `{CV2} (σ : store) (image : ndarray)
    (buf : Image) :
  σ !! base image = Some buf →
  at_least_4_lines (hough_lines (window image buf)) = false →
  runs (detect_document_edges_alternative image) σ (fun r σ' =>
    base r.1 = base image ∧ σ' !! base r.1 = Some buf).
Proof.
  intros Hbuf Hlines.
  eapply runs_mono; [by apply detect_document_edges_alternative_runs|].
  intros [out corners] σ' Halt. cbn [fst snd] in *.
  unfold alternative_result in Halt. rewrite Hlines in Halt.
  destruct (shape image) as [h w]. destruct Halt as (Hsub & _ & ->).
  split; [reflexivity|]. cbn [base slice2]. by eapply lookup_weaken.
Qed.

(** C9: after [detect_document_edges], whatever tier runs, and after
    [enhance_document], every buffer the caller had is still in the store
    with the pixels it had, the input buffer among them, and the image
    returned is backed by a buffer that did not exist before the call.  The
    same holds when the enhancer is run on the detector's result. *)
Theorem pipeline_leaves_input_unchanged `{CV2} (σ : store) (image : ndarray)
    (buf : Image) :
  σ !! base image = Some buf →
  runs (detect_document_edges image) σ (fun r σ' =>
    σ ⊆ σ' ∧ σ' !! base image = Some buf ∧
    (base r.1 ∉ dom σ) ∧ base r.1 ≠ base image ∧ is_Some (σ' !! base r.1)) ∧
  runs (enhance_document image) σ (fun out σ' =>
    σ ⊆ σ' ∧ σ' !! base image = Some buf ∧
    (base out ∉ dom σ) ∧ base out ≠ base image ∧ is_Some (σ' !! base out)) ∧
  runs (r ← detect_document_edges image; enhance_document r.1) σ (fun out σ' =>
    σ ⊆ σ' ∧ σ' !! base image = Some buf ∧
    (base out ∉ dom σ) ∧ base out ≠ base image ∧ is_Some (σ' !! base out)).
Proof.
  intros Hbuf.
  assert (∀ l, l ∉ dom σ → l ≠ base image) as Hother.
  { intros l Hl ->. apply Hl, elem_of_dom. eauto. }
  assert (runs (detect_document_edges image) σ (fun r σ' =>
            σ ⊆ σ' ∧ σ' !! base image = Some buf ∧
            (base r.1 ∉ dom σ) ∧ base r.1 ≠ base image ∧ is_Some (σ' !! base r.1)))
    as Hdetect.
  { eapply runs_mono; [by apply detect_document_edges_outcome|].
    intros r σ' (Hsub & Hfresh & res & Hres & _).
    split_and!; [done | by eapply lookup_weaken | done | by apply Hother | by eexists]. }
  assert (∀ σ1 a b, σ ⊆ σ1 → σ1 !! base a = Some b →
            runs (enhance_document a) σ1 (fun out σ' =>
              σ ⊆ σ' ∧ σ' !! base image = Some buf ∧
              (base out ∉ dom σ) ∧ base out ≠ base image ∧ is_Some (σ' !! base out)))
    as Henhance.
  { intros σ1 a b Hsub1 Ha.
    eapply runs_mono; [by eapply enhance_document_runs|].
    intros out σ' (Hsub & Hfresh & _ & Hres). cbn zeta in Hres.
    assert (base out ∉ dom σ) as Hfresh' by by eapply fresh_weaken.
    split_and!; [by etrans | | done | by apply Hother | by eexists].
    eapply lookup_weaken; [done | by etrans]. }
  split_and!; [done | by eapply Henhance | ].
  apply runs_bind. eapply runs_mono; [exact Hdetect|].
  intros r σ' (Hsub & _ & _ & _ & [res Hres]). by eapply Henhance.
Qed.

Lemma pipeline_leaves_input_unchanged_witness :
  let cv := stand_in [ large_quad ] None in
  just white_20 !! base (whole 0 white_20) = Some white_20 ∧
  runs (r ← detect_document_edges (whole 0 white_20); enhance_document r.1)
    (just white_20) (fun out σ' =>
      just white_20 ⊆ σ' ∧ σ' !! base (whole 0 white_20) = Some white_20 ∧
      (base out ∉ dom (just white_20)) ∧ base out ≠ base (whole 0 white_20) ∧
      is_Some (σ' !! base out)).
Proof.
  intros cv. split; [reflexivity|].
  apply (pipeline_leaves_input_unchanged (just white_20) (whole 0 white_20) white_20).
  reflexivity.
Defined.

(** ** Drawing on a copy *)

Lemma runs_call_inplace (f : Image → Image) (a : ndarray) (buf : Image)
    (σ : store) (Q : unit → store → Prop) :
  σ !! base a = Some buf →
  Q tt (<[base a := paste a (f (window a buf)) buf]> σ) →
  runs (call_inplace f a) σ Q.
Proof.
  intros Hb HQ. eexists tt, _. split; [|exact HQ].
  unfold call_inplace. by rewrite Hb.
Qed.

(** A loop of drawing calls on [a] changes the buffer of [a] and no
    other. *)
Lemma for_each_inplace_runs {A} (l : list A) (f : A → Image → Image)
    (a : ndarray) (σ0 σ : store) :
  σ0 ⊆ σ → base a ∉ dom σ0 → is_Some (σ !! base a) →
  runs (for_each l (fun x => call_inplace (f x) a)) σ (fun _ σ' =>
    σ0 ⊆ σ' ∧ is_Some (σ' !! base a)).
Proof.
  revert σ. induction l as [|x l IH]; intros σ Hsub Hfresh [buf Hbuf]; cbn.
  - apply runs_ret. split; [done | by eexists].
  - apply runs_bind. eapply runs_call_inplace; [done|]. apply IH; [|done|].
    + apply insert_subseteq_r; [by apply not_elem_of_dom | done].
    + rewrite lookup_insert_eq. by eexists.
Qed.

(** The part of [process_document] that calls the pipeline and draws the
    markers leaves every buffer of its caller as it was, the decoded input
    among them: the markers go to a copy. *)
Lemma process_document_core_runs `{CV2} (σ : store) (image : ndarray) (buf : Image) :
  σ !! base image = Some buf →
  runs (process_document_core image) σ (fun r σ' =>
    σ ⊆ σ' ∧ σ' !! base image = Some buf ∧
    (base r.1.1 ∉ dom σ) ∧ (base r.1.2 ∉ dom σ) ∧ length r.2 = 4%nat).
Proof.
  intros Hbuf. unfold process_document_core.
  apply runs_bind. eapply runs_mono; [by apply detect_document_edges_outcome|].
  intros [cropped corners] σ1 (Hsub1 & _ & res & Hres & Hout). cbn [fst snd] in *.
  apply tier_outcome_length in Hout.
  apply runs_bind. eapply runs_mono; [by eapply enhance_document_runs|].
  intros enhanced σ2 (Hsub2 & Hfresh2 & _).
  assert (σ ⊆ σ2) as Hsub by by etrans.
  assert (σ2 !! base image = Some buf) as Hbuf2 by by eapply lookup_weaken.
  apply runs_bind. eapply runs_call; [exact Hbuf2|].
  intros l σ3 Hl Hext3 Hnew.
  assert (l ∉ dom σ) as Hl0 by by eapply fresh_weaken.
  apply runs_bind. eapply runs_mono.
  { eapply (for_each_inplace_runs _ _ _ σ σ3); cbn [base whole];
      [by etrans | done | by eexists]. }
  intros _ σ4 (Hsub4 & [canvas Hcanvas]). cbn [base whole] in Hcanvas.
  apply runs_bind. eapply runs_call_inplace; [cbn [base whole]; exact Hcanvas|].
  apply runs_ret. cbn [fst snd base whole].
  assert (σ ⊆ <[l := paste (whole l (id (window image buf)))
                        (polylines (window (whole l (id (window image buf))) canvas)
                           [corners] true (0, 255, 0) 3) canvas]> σ4) as Hfinal.
  { apply insert_subseteq_r; [by apply not_elem_of_dom | done]. }
  split_and!; [done | exact (lookup_weaken _ _ _ _ Hbuf Hfinal)
              | exact (fresh_weaken _ _ _ Hfresh2 Hsub1) | done | done].
Qed.

(** ** More on corner ordering *)

(** [argmin] and [argmax] see only the order of the values. *)
Lemma argmin_map_increasing (f : Z → Z) (l : list Z) :
  (∀ a b, a < b ↔ f a < f b) → argmin (map f l) = argmin l.
Proof.
  intros Hf. induction l as [|x l IH]; [done|].
  cbn [map argmin]. rewrite IH. destruct (argmin l) as [j|]; [|done].
  rewrite list_lookup_fmap. destruct (l !! j) as [y|]; cbn; [|done].
  destruct (Z.ltb_spec y x), (Z.ltb_spec (f y) (f x)); try done.
  - apply Hf in H. lia.
  - apply Hf in H0. lia.
Qed.

Lemma argmax_map_increasing (f : Z → Z) (l : list Z) :
  (∀ a b, a < b ↔ f a < f b) → argmax (map f l) = argmax l.
Proof.
  intros Hf. induction l as [|x l IH]; [done|].
  cbn [map argmax]. rewrite IH. destruct (argmax l) as [j|]; [|done].
  rewrite list_lookup_fmap. destruct (l !! j) as [y|]; cbn; [|done].
  destruct (Z.ltb_spec x y), (Z.ltb_spec (f x) (f y)); try done.
  - apply Hf in H. lia.
  - apply Hf in H0. lia.
Qed.

Lemma argmin_map_decreasing (f : Z → Z) (l : list Z) :
  (∀ a b, a < b ↔ f b < f a) → argmin (map f l) = argmax l.
Proof.
  intros Hf. induction l as [|x l IH]; [done|].
  cbn [map argmin argmax]. rewrite IH. destruct (argmax l) as [j|]; [|done].
  rewrite list_lookup_fmap. destruct (l !! j) as [y|]; cbn; [|done].
  destruct (Z.ltb_spec x y), (Z.ltb_spec (f y) (f x)); try done.
  - apply Hf in H. lia.
  - apply Hf in H0. lia.
Qed.

Lemma argmax_map_decreasing (f : Z → Z) (l : list Z) :
  (∀ a b, a < b ↔ f b < f a) → argmax (map f l) = argmin l.
Proof.
  intros Hf. induction l as [|x l IH]; [done|].
  cbn [map argmin argmax]. rewrite IH. destruct (argmin l) as [j|]; [|done].
  rewrite list_lookup_fmap. destruct (l !! j) as [y|]; cbn; [|done].
  destruct (Z.ltb_spec y x), (Z.ltb_spec (f x) (f y)); try done.
  - apply Hf in H. lia.
  - apply Hf in H0. lia.
Qed.

(** The four rows [order_points] picks on a non-empty input. *)
Lemma order_points_picks (pts : list point) :
  pts ≠ [] →
  ∃ i0 i1 i2 i3 p0 p1 p2 p3,
    (argmin (sum_axis1 pts) = Some i0 ∧ pts !! i0 = Some p0) ∧
    (argmax (sum_axis1 pts) = Some i2 ∧ pts !! i2 = Some p2) ∧
    (argmin (diff_axis1 pts) = Some i1 ∧ pts !! i1 = Some p1) ∧
    (argmax (diff_axis1 pts) = Some i3 ∧ pts !! i3 = Some p3) ∧
    order_points pts = Some [p0; p1; p2; p3].
Proof.
  intros Hne.
  destruct (argmin_key (fun p => px p + py p) pts Hne) as (i0 & p0 & H0 & Hp0 & _).
  destruct (argmax_key (fun p => px p + py p) pts Hne) as (i2 & p2 & H2 & Hp2 & _).
  destruct (argmin_key (fun p => py p - px p) pts Hne) as (i1 & p1 & H1 & Hp1 & _).
  destruct (argmax_key (fun p => py p - px p) pts Hne) as (i3 & p3 & H3 & Hp3 & _).
  exists i0, i1, i2, i3, p0, p1, p2, p3. split_and!; try done.
  by eapply order_points_rows.
Qed.

Lemma lookup_map_point (f : point → point) (pts : list point) (i : nat) (p : point) :
  pts !! i = Some p → map f pts !! i = Some (f p).
Proof. intros Hp. by rewrite list_lookup_fmap, Hp. Qed.

Lemma edge_len_sym (a b : point) : edge_len a b = edge_len b a.
Proof. unfold edge_len. f_equal. lia. Qed.

(** Whatever [order_points] returns is four rows of its input. *)
Lemma order_points_some (pts rect : list point) :
  order_points pts = Some rect →
  ∃ tl tr br bl, rect = [tl; tr; br; bl] ∧
    tl ∈ pts ∧ tr ∈ pts ∧ br ∈ pts ∧ bl ∈ pts.
Proof.
  intros Hrect.
  destruct (order_points_extremes pts) as (rect' & Hrect' & Hord).
  { intros ->. discriminate Hrect. }
  rewrite Hrect in Hrect'. injection Hrect' as <-.
  destruct Hord as (tl & tr & br & bl & -> & Htl & Htr & Hbr & Hbl & _).
  by exists tl, tr, br, bl.
Qed.

(** X1: [order_points] raises exactly on an empty input; on any other
    input, of whatever length, it returns four rows, each a row of the
    input. *)
Theorem order_points_four_rows_of_input (pts : list point) :
  match order_points pts with
  | None => pts = []
  | Some rect => pts ≠ [] ∧ length rect = 4%nat ∧ rect ⊆ pts
  end.
Proof.
  destruct pts as [|p pts]; [done|].
  destruct (order_points_extremes (p :: pts)) as (rect & -> & Hord); [done|].
  destruct Hord as (tl & tr & br & bl & -> & Htl & Htr & Hbr & Hbl & _).
  split_and!; [done | done |].
  intros q Hq. repeat (apply elem_of_cons in Hq as [-> | Hq]); try done.
  by apply elem_of_nil in Hq.
Qed.

(** With distinct sums and distinct differences every extreme is attained
    once, and that fixes what [order_points] returns on any list that
    holds the four extremes and nothing outside [pts]. *)
Lemma order_points_determined (pts l : list point) (tl tr br bl : point) :
  distinct_keys pts →
  order_points pts = Some [tl; tr; br; bl] →
  l ⊆ pts → tl ∈ l → tr ∈ l → br ∈ l → bl ∈ l →
  order_points l = Some [tl; tr; br; bl].
Proof.
  intros [Hsum Hdiff] Hrect Hsub Htl Htr Hbr Hbl.
  destruct (order_points_extremes pts) as (rect & Hrect' & Hord).
  { intros ->. discriminate Hrect. }
  rewrite Hrect in Hrect'. injection Hrect' as <-.
  destruct Hord as (tl' & tr' & br' & bl' & [= <- <- <- <-] & Hitl & Hitr & Hibr & Hibl & Hall).
  destruct (argmin_key_unique (fun p => px p + py p) l tl) as (i0 & H0 & Hp0); [done| |].
  { intros q Hq Hne. destruct (Hall q (Hsub _ Hq)) as (Hle & _).
    destruct (decide (px tl + py tl = px q + py q)) as [Heq|]; [|lia].
    exfalso. apply Hne. symmetry. by apply Hsum; [| apply Hsub |]. }
  destruct (argmax_key_unique (fun p => px p + py p) l br) as (i2 & H2 & Hp2); [done| |].
  { intros q Hq Hne. destruct (Hall q (Hsub _ Hq)) as (_ & Hle & _).
    destruct (decide (px br + py br = px q + py q)) as [Heq|]; [|lia].
    exfalso. apply Hne. symmetry. by apply Hsum; [| apply Hsub |]. }
  destruct (argmin_key_unique (fun p => py p - px p) l tr) as (i1 & H1 & Hp1); [done| |].
  { intros q Hq Hne. destruct (Hall q (Hsub _ Hq)) as (_ & _ & Hle & _).
    destruct (decide (py tr - px tr = py q - px q)) as [Heq|]; [|lia].
    exfalso. apply Hne. symmetry. by apply Hdiff; [| apply Hsub |]. }
  destruct (argmax_key_unique (fun p => py p - px p) l bl) as (i3 & H3 & Hp3); [done| |].
  { intros q Hq Hne. destruct (Hall q (Hsub _ Hq)) as (_ & _ & _ & Hle).
    destruct (decide (py bl - px bl = py q - px q)) as [Heq|]; [|lia].
    exfalso. apply Hne. symmetry. by apply Hdiff; [| apply Hsub |]. }
  by eapply order_points_rows.
Qed.

(** X2: when no two points share a sum or a difference, the result of
    [order_points] does not depend on the order in which the points are
    given. *)
Theorem order_points_order_independent (pts pts' : list point) :
  distinct_keys pts → pts' ≡ₚ pts → order_points pts' = order_points pts.
Proof.
  intros Hkeys Hperm.
  destruct pts as [|p pts].
  { apply Permutation_nil_r in Hperm. by subst. }
  destruct (order_points_extremes (p :: pts)) as (rect & Hrect & Hord); [done|].
  destruct Hord as (tl & tr & br & bl & -> & Htl & Htr & Hbr & Hbl & _).
  rewrite Hrect.
  apply (order_points_determined (p :: pts)); try done; by rewrite Hperm.
Qed.

Lemma scenario_distinct_keys : distinct_keys scenario_pts.
Proof.
  split; intros p q Hp Hq; unfold scenario_pts in Hp, Hq;
    repeat (apply elem_of_cons in Hp as [-> | Hp]);
    repeat (apply elem_of_cons in Hq as [-> | Hq]);
    try (by apply elem_of_nil in Hp); try (by apply elem_of_nil in Hq);
    cbn; intros Heq; try done; try lia.
Defined.

Lemma order_points_order_independent_witness :
  distinct_keys scenario_pts ∧
  [ (120, 720); (880, 750); (900, 80); (100, 50) ] ≡ₚ scenario_pts ∧
  order_points [ (120, 720); (880, 750); (900, 80); (100, 50) ]
    = order_points scenario_pts.
Proof.
  assert ([ ((120, 720) : point); (880, 750); (900, 80); (100, 50) ] ≡ₚ scenario_pts)
    as Hperm.
  { unfold scenario_pts. symmetry. apply (Permutation_rev
      [ ((100, 50) : point); (900, 80); (880, 750); (120, 720) ]). }
  split; [exact scenario_distinct_keys|]. split; [exact Hperm|].
  apply (order_points_order_independent scenario_pts
           [ (120, 720); (880, 750); (900, 80); (100, 50) ]
           scenario_distinct_keys Hperm).
Defined.

(** X3: under the same condition, ordering corners that are already
    ordered changes nothing. *)
Theorem order_points_idempotent (pts rect : list point) :
  distinct_keys pts → order_points pts = Some rect →
  order_points rect = Some rect.
Proof.
  intros Hkeys Hrect.
  destruct (order_points_some pts rect Hrect)
    as (tl & tr & br & bl & -> & Htl & Htr & Hbr & Hbl).
  apply (order_points_determined pts); try done.
  - intros q Hq. repeat (apply elem_of_cons in Hq as [-> | Hq]); try done.
    by apply elem_of_nil in Hq.
  - apply list_elem_of_here.
  - apply list_elem_of_further, list_elem_of_here.
  - do 2 apply list_elem_of_further. apply list_elem_of_here.
  - do 3 apply list_elem_of_further. apply list_elem_of_here.
Qed.

Lemma order_points_idempotent_witness :
  distinct_keys scenario_pts ∧
  order_points scenario_pts = Some scenario_pts ∧
  order_points scenario_pts = Some scenario_pts.
Proof.
  split; [exact scenario_distinct_keys|]. split; [reflexivity|].
  apply (order_points_idempotent scenario_pts scenario_pts scenario_distinct_keys).
  reflexivity.
Defined.

(** ** Ties *)

Lemma argmin_key_first (key : point → Z) (pts : list point) :
  pts ≠ [] →
  ∃ i p l1 l2, argmin (map key pts) = Some i ∧ pts !! i = Some p ∧
    pts = l1 ++ p :: l2 ∧ ∀ q, q ∈ l1 → key p < key q.
Proof.
  intros Hne.
  destruct (argmin_spec (map key pts)) as (i & m & Hi & Hm & _ & Hfirst).
  { by destruct pts. }
  rewrite list_lookup_fmap in Hm.
  destruct (pts !! i) as [p|] eqn:Hp; [|done]. injection Hm as <-.
  exists i, p, (take i pts), (drop (S i) pts). split_and!; try done.
  - symmetry. by apply take_drop_middle.
  - intros q [j [Hq Hlt]]%elem_of_take.
    apply (Hfirst j); [done|]. by rewrite list_lookup_fmap, Hq.
Qed.

Lemma argmax_key_first (key : point → Z) (pts : list point) :
  pts ≠ [] →
  ∃ i p l1 l2, argmax (map key pts) = Some i ∧ pts !! i = Some p ∧
    pts = l1 ++ p :: l2 ∧ ∀ q, q ∈ l1 → key q < key p.
Proof.
  intros Hne.
  destruct (argmax_spec (map key pts)) as (i & m & Hi & Hm & _ & Hfirst).
  { by destruct pts. }
  rewrite list_lookup_fmap in Hm.
  destruct (pts !! i) as [p|] eqn:Hp; [|done]. injection Hm as <-.
  exists i, p, (take i pts), (drop (S i) pts). split_and!; try done.
  - symmetry. by apply take_drop_middle.
  - intros q [j [Hq Hlt]]%elem_of_take.
    apply (Hfirst j); [done|]. by rewrite list_lookup_fmap, Hq.
Qed.

(** X4: ties go to the point listed first.  Each corner returned stands in
    the input behind points only that are strictly worse for it: a larger
    sum for the top-left, a smaller sum for the bottom-right, a larger
    difference [y - x] for the top-right, a smaller one for the
    bottom-left. *)
Theorem order_points_first_listed (pts : list point) (tl tr br bl : point) :
  order_points pts = Some [tl; tr; br; bl] →
  (∃ l1 l2, pts = l1 ++ tl :: l2 ∧ ∀ q, q ∈ l1 → px tl + py tl < px q + py q) ∧
  (∃ l1 l2, pts = l1 ++ br :: l2 ∧ ∀ q, q ∈ l1 → px q + py q < px br + py br) ∧
  (∃ l1 l2, pts = l1 ++ tr :: l2 ∧ ∀ q, q ∈ l1 → py tr - px tr < py q - px q) ∧
  (∃ l1 l2, pts = l1 ++ bl :: l2 ∧ ∀ q, q ∈ l1 → py q - px q < py bl - px bl).
Proof.
  intros Hrect.
  assert (pts ≠ []) as Hne by (intros ->; discriminate Hrect).
  destruct (argmin_key_first (fun p => px p + py p) pts Hne)
    as (i0 & p0 & a0 & b0 & H0 & Hp0 & Hs0 & Hf0).
  destruct (argmax_key_first (fun p => px p + py p) pts Hne)
    as (i2 & p2 & a2 & b2 & H2 & Hp2 & Hs2 & Hf2).
  destruct (argmin_key_first (fun p => py p - px p) pts Hne)
    as (i1 & p1 & a1 & b1 & H1 & Hp1 & Hs1 & Hf1).
  destruct (argmax_key_first (fun p => py p - px p) pts Hne)
    as (i3 & p3 & a3 & b3 & H3 & Hp3 & Hs3 & Hf3).
  rewrite (order_points_rows pts i0 i1 i2 i3 p0 p1 p2 p3) in Hrect by done.
  injection Hrect as <- <- <- <-.
  split_and!; eauto.
Qed.

Lemma order_points_first_listed_witness :
  order_points diamond_pts = Some [ (5, 0); (5, 0); (10, 5); (5, 10) ] ∧
  ∃ l1 l2, diamond_pts = l1 ++ (10, 5) :: l2 ∧
    ∀ q, q ∈ l1 → px q + py q < px (10, 5) + py (10, 5).
Proof.
  split; [reflexivity|].
  destruct (order_points_first_listed diamond_pts (5, 0) (5, 0) (10, 5) (5, 10))
    as (_ & Hbr & _); [reflexivity|]. exact Hbr.
Defined.

(** ** Moving, mirroring and transposing the quadrilateral *)

Lemma edge_len_shift (dx dy : Z) (a b : point) :
  edge_len (shift dx dy a) (shift dx dy b) = edge_len a b.
Proof. unfold edge_len, shift. cbn. f_equal. lia. Qed.

Lemma edge_len_mirror_x (w : Z) (a b : point) :
  edge_len (mirror_x w a) (mirror_x w b) = edge_len a b.
Proof. unfold edge_len, mirror_x. cbn. f_equal. lia. Qed.

Lemma edge_len_transpose (a b : point) :
  edge_len (transpose a) (transpose b) = edge_len a b.
Proof. unfold edge_len, transpose. cbn. f_equal. lia. Qed.

(** X5: moving all the points by the same vector moves the ordered corners
    by that vector and leaves the target size as it was. *)
Theorem order_points_shift (dx dy : Z) (pts : list point) :
  order_points (map (shift dx dy) pts) = map (shift dx dy) <$> order_points pts ∧
  target_size (map (shift dx dy) pts) = target_size pts.
Proof.
  destruct pts as [|p0 pts0]; [done|]. set (pts := p0 :: pts0).
  destruct (order_points_picks pts) as
    (i0 & i1 & i2 & i3 & tl & tr & br & bl & [H0 Hp0] & [H2 Hp2] & [H1 Hp1] & [H3 Hp3] & Hrect);
    [done|].
  assert (sum_axis1 (map (shift dx dy) pts)
          = map (fun s => s + (dx + dy)) (sum_axis1 pts)) as Hsum.
  { unfold sum_axis1. rewrite !map_map. apply map_ext. intros [x y]. cbn. lia. }
  assert (diff_axis1 (map (shift dx dy) pts)
          = map (fun d => d + (dy - dx)) (diff_axis1 pts)) as Hdiff.
  { unfold diff_axis1. rewrite !map_map. apply map_ext. intros [x y]. cbn. lia. }
  assert (order_points (map (shift dx dy) pts)
          = Some (map (shift dx dy) [tl; tr; br; bl])) as Hmoved.
  { eapply order_points_rows; rewrite ?Hsum, ?Hdiff;
      first [ rewrite argmin_map_increasing by (intros; lia); eassumption
            | rewrite argmax_map_increasing by (intros; lia); eassumption
            | by apply lookup_map_point ]. }
  split; [by rewrite Hmoved, Hrect|].
  unfold target_size. rewrite Hmoved, Hrect. cbn.
  unfold max_width, max_height. by rewrite !edge_len_shift.
Qed.

(** X6: mirroring all the points left to right exchanges the left and the
    right corners and leaves the target size as it was. *)
Theorem order_points_mirror_x (w : Z) (pts : list point) :
  order_points (map (mirror_x w) pts)
    = (fun rect => map (mirror_x w) (swap_left_right rect)) <$> order_points pts ∧
  target_size (map (mirror_x w) pts) = target_size pts.
Proof.
  destruct pts as [|p0 pts0]; [done|]. set (pts := p0 :: pts0).
  destruct (order_points_picks pts) as
    (i0 & i1 & i2 & i3 & tl & tr & br & bl & [H0 Hp0] & [H2 Hp2] & [H1 Hp1] & [H3 Hp3] & Hrect);
    [done|].
  assert (sum_axis1 (map (mirror_x w) pts)
          = map (fun d => d + w) (diff_axis1 pts)) as Hsum.
  { unfold sum_axis1, diff_axis1. rewrite !map_map. apply map_ext. intros [x y]. cbn. lia. }
  assert (diff_axis1 (map (mirror_x w) pts)
          = map (fun s => s - w) (sum_axis1 pts)) as Hdiff.
  { unfold sum_axis1, diff_axis1. rewrite !map_map. apply map_ext. intros [x y]. cbn. lia. }
  assert (order_points (map (mirror_x w) pts)
          = Some (map (mirror_x w) [tr; tl; bl; br])) as Hmirrored.
  { eapply order_points_rows; rewrite ?Hsum, ?Hdiff;
      first [ rewrite argmin_map_increasing by (intros; lia); eassumption
            | rewrite argmax_map_increasing by (intros; lia); eassumption
            | by apply lookup_map_point ]. }
  split; [by rewrite Hmirrored, Hrect|].
  unfold target_size. rewrite Hmirrored, Hrect. cbn.
  unfold max_width, max_height. rewrite !edge_len_mirror_x.
  rewrite (edge_len_sym bl br), (edge_len_sym tl tr).
  rewrite (edge_len_sym tl bl), (edge_len_sym tr br). f_equal. f_equal. lia.
Qed.

(** X7: exchanging the two coordinates of all the points exchanges the
    top-right and the bottom-left corner and exchanges width and height of
    the target size. *)
Theorem order_points_transpose (pts : list point) :
  order_points (map transpose pts)
    = (fun rect => map transpose (swap_off_diagonal rect)) <$> order_points pts ∧
  target_size (map transpose pts) = (fun '(w, h) => (h, w)) <$> target_size pts.
Proof.
  destruct pts as [|p0 pts0]; [done|]. set (pts := p0 :: pts0).
  destruct (order_points_picks pts) as
    (i0 & i1 & i2 & i3 & tl & tr & br & bl & [H0 Hp0] & [H2 Hp2] & [H1 Hp1] & [H3 Hp3] & Hrect);
    [done|].
  assert (sum_axis1 (map transpose pts) = map (fun s => s + 0) (sum_axis1 pts)) as Hsum.
  { unfold sum_axis1. rewrite !map_map. apply map_ext. intros [x y]. cbn. lia. }
  assert (diff_axis1 (map transpose pts) = map (fun d => - d) (diff_axis1 pts)) as Hdiff.
  { unfold diff_axis1. rewrite !map_map. apply map_ext. intros [x y]. cbn. lia. }
  assert (order_points (map transpose pts)
          = Some (map transpose [tl; bl; br; tr])) as Htransposed.
  { eapply order_points_rows; rewrite ?Hsum, ?Hdiff;
      first [ rewrite argmin_map_increasing by (intros; lia); eassumption
            | rewrite argmax_map_increasing by (intros; lia); eassumption
            | rewrite argmin_map_decreasing by (intros; lia); eassumption
            | rewrite argmax_map_decreasing by (intros; lia); eassumption
            | by apply lookup_map_point ]. }
  split; [by rewrite Htransposed, Hrect|].
  unfold target_size. rewrite Htransposed, Hrect. cbn.
  unfold max_width, max_height. rewrite !edge_len_transpose.
  rewrite (edge_len_sym br tr), (edge_len_sym bl tl).
  by rewrite (edge_len_sym bl br), (edge_len_sym tl tr).
Qed.

(** ** Degenerate and bounded target sizes *)

Lemma diamond_convex (cx cy a b : Z) :
  0 < a → 0 < b → convex_quad (diamond cx cy a b) = true.
Proof.
  intros Ha Hb. unfold convex_quad, diamond, cross. cbn [px py fst snd].
  apply orb_true_iff. left. rewrite !andb_true_iff, !Z.ltb_lt.
  split_and!; nia.
Qed.

(** X8: a quadrilateral standing on a vertex collapses.  When it is taller
    than wide its top vertex is taken as both top corners and its bottom
    vertex as both bottom corners, and the target width is 0; when it is
    wider than tall its left vertex is taken as both left corners and its
    right vertex as both right corners, and the target height is 0.  This
    holds in whatever order the four vertices are given. *)
Theorem diamond_collapses (cx cy a b : Z) (pts : list point) :
  0 < a → 0 < b → pts ≡ₚ diamond cx cy a b →
  convex_quad (diamond cx cy a b) = true ∧
  (a < b →
     order_points pts = Some [ (cx, cy - b); (cx, cy - b); (cx, cy + b); (cx, cy + b) ] ∧
     target_size pts = Some (0, 2 * b)) ∧
  (b < a →
     order_points pts = Some [ (cx - a, cy); (cx + a, cy); (cx + a, cy); (cx - a, cy) ] ∧
     target_size pts = Some (2 * a, 0)).
Proof.
  intros Ha Hb Hperm.
  assert (∀ q, q ∈ pts →
            q = (cx, cy - b) ∨ q = (cx + a, cy) ∨ q = (cx, cy + b) ∨ q = (cx - a, cy))
    as Hcases.
  { intros q Hq. rewrite Hperm in Hq. unfold diamond in Hq.
    repeat (apply elem_of_cons in Hq as [-> | Hq]); auto.
    by apply elem_of_nil in Hq. }
  assert (∀ q, q ∈ diamond cx cy a b → q ∈ pts) as Hin.
  { intros q Hq. by rewrite Hperm. }
  assert ((cx, cy - b) ∈ pts) as Htop.
  { apply Hin. apply list_elem_of_here. }
  assert ((cx + a, cy) ∈ pts) as Hright.
  { apply Hin. apply list_elem_of_further, list_elem_of_here. }
  assert ((cx, cy + b) ∈ pts) as Hbottom.
  { apply Hin. do 2 apply list_elem_of_further. apply list_elem_of_here. }
  assert ((cx - a, cy) ∈ pts) as Hleft.
  { apply Hin. do 3 apply list_elem_of_further. apply list_elem_of_here. }
  split; [by apply diamond_convex|]. split; intros Hab.
  - assert (order_points pts
            = Some [ (cx, cy - b); (cx, cy - b); (cx, cy + b); (cx, cy + b) ]) as Hrect.
    { destruct (argmin_key_unique (fun p => px p + py p) pts (cx, cy - b))
        as (i0 & H0 & Hp0); [done| |].
      { intros q Hq Hne. destruct (Hcases q Hq) as [-> | [-> | [-> | ->]]]; cbn; try lia; done. }
      destruct (argmax_key_unique (fun p => px p + py p) pts (cx, cy + b))
        as (i2 & H2 & Hp2); [done| |].
      { intros q Hq Hne. destruct (Hcases q Hq) as [-> | [-> | [-> | ->]]]; cbn; try lia; done. }
      destruct (argmin_key_unique (fun p => py p - px p) pts (cx, cy - b))
        as (i1 & H1 & Hp1); [done| |].
      { intros q Hq Hne. destruct (Hcases q Hq) as [-> | [-> | [-> | ->]]]; cbn; try lia; done. }
      destruct (argmax_key_unique (fun p => py p - px p) pts (cx, cy + b))
        as (i3 & H3 & Hp3); [done| |].
      { intros q Hq Hne. destruct (Hcases q Hq) as [-> | [-> | [-> | ->]]]; cbn; try lia; done. }
      by eapply order_points_rows. }
    split; [done|]. rewrite (target_size_ordered _ _ _ _ _ Hrect).
    unfold max_width, max_height.
    rewrite (edge_len_square (cx, cy + b) (cx, cy + b) 0) by (cbn; lia).
    rewrite (edge_len_square (cx, cy - b) (cx, cy - b) 0) by (cbn; lia).
    rewrite (edge_len_square (cx, cy - b) (cx, cy + b) (2 * b)) by (cbn; lia).
    by rewrite !Z.max_id.
  - assert (order_points pts
            = Some [ (cx - a, cy); (cx + a, cy); (cx + a, cy); (cx - a, cy) ]) as Hrect.
    { destruct (argmin_key_unique (fun p => px p + py p) pts (cx - a, cy))
        as (i0 & H0 & Hp0); [done| |].
      { intros q Hq Hne. destruct (Hcases q Hq) as [-> | [-> | [-> | ->]]]; cbn; try lia; done. }
      destruct (argmax_key_unique (fun p => px p + py p) pts (cx + a, cy))
        as (i2 & H2 & Hp2); [done| |].
      { intros q Hq Hne. destruct (Hcases q Hq) as [-> | [-> | [-> | ->]]]; cbn; try lia; done. }
      destruct (argmin_key_unique (fun p => py p - px p) pts (cx + a, cy))
        as (i1 & H1 & Hp1); [done| |].
      { intros q Hq Hne. destruct (Hcases q Hq) as [-> | [-> | [-> | ->]]]; cbn; try lia; done. }
      destruct (argmax_key_unique (fun p => py p - px p) pts (cx - a, cy))
        as (i3 & H3 & Hp3); [done| |].
      { intros q Hq Hne. destruct (Hcases q Hq) as [-> | [-> | [-> | ->]]]; cbn; try lia; done. }
      by eapply order_points_rows. }
    split; [done|]. rewrite (target_size_ordered _ _ _ _ _ Hrect).
    unfold max_width, max_height.
    rewrite (edge_len_square (cx + a, cy) (cx - a, cy) (2 * a)) by (cbn; lia).
    rewrite (edge_len_square (cx + a, cy) (cx + a, cy) 0) by (cbn; lia).
    rewrite (edge_len_square (cx - a, cy) (cx - a, cy) 0) by (cbn; lia).
    by rewrite !Z.max_id.
Qed.

Lemma diamond_collapses_witness :
  0 < 100 ∧ 0 < 150 ∧
  [ (0, 150); (100, 300); (100, 0); (200, 150) ] ≡ₚ diamond 100 150 100 150 ∧
  target_size [ (0, 150); (100, 300); (100, 0); (200, 150) ] = Some (0, 300).
Proof.
  assert ([ ((0, 150) : point); (100, 300); (100, 0); (200, 150) ]
            ≡ₚ diamond 100 150 100 150) as Hperm.
  { unfold diamond. cbn.
    apply (Permutation_trans (l' := [ (100, 0); (0, 150); (100, 300); (200, 150) ])).
    { apply (Permutation_trans (l' := [ (0, 150); (100, 0); (100, 300); (200, 150) ]));
        [apply perm_skip, perm_swap | apply perm_swap]. }
    apply perm_skip.
    apply (Permutation_trans (l' := [ (200, 150); (0, 150); (100, 300) ])).
    { apply (Permutation_trans (l' := [ (0, 150); (200, 150); (100, 300) ]));
        [apply perm_skip, perm_swap | apply perm_swap]. }
    apply perm_skip, perm_swap. }
  split; [lia|]. split; [lia|]. split; [exact Hperm|].
  destruct (diamond_collapses 100 150 100 150
              [ (0, 150); (100, 300); (100, 0); (200, 150) ])
    as (_ & Htall & _); [lia | lia | exact Hperm |].
  destruct Htall as [_ Hsize]; [lia|]. exact Hsize.
Defined.




(** ** More on contour selection *)

Section SelectionOrder.
Context `{CV2}.

(** X10: the sort is stable: contours of one and the same area come out in
    the order in which they went in. *)
Theorem sorted_by_area_stable (a : Q) (l : list contour) :
  filter (fun d => Qeq_bool (contourArea d) a = true) (sorted_by_area l)
  = filter (fun d => Qeq_bool (contourArea d) a = true) l.
Proof.
  assert (∀ c S,
            filter (fun d => Qeq_bool (contourArea d) a = true) (insert_by_area c S)
            = filter (fun d => Qeq_bool (contourArea d) a = true) (c :: S)) as Hins.
  { intros c S. induction S as [|d S IH]; [done|]. cbn [insert_by_area].
    destruct (Qgtb (contourArea d) (contourArea c)) eqn:Hgt; [|done].
    rewrite filter_cons, IH, !filter_cons.
    destruct (decide (Qeq_bool (contourArea d) a = true)) as [Hd|Hd];
      destruct (decide (Qeq_bool (contourArea c) a = true)) as [Hc|Hc]; try done.
    exfalso. apply Qgtb_lt in Hgt.
    apply Qeq_bool_iff in Hd, Hc. rewrite Hd, Hc in Hgt.
    by apply Qlt_irrefl in Hgt. }
  induction l as [|c l IH]; [done|].
  cbn [sorted_by_area]. rewrite Hins, !filter_cons, IH. done.
Qed.

(** Where a contour lands that is at least as large as every qualifying
    contour of the list: behind contours that do not qualify. *)
Lemma insert_by_area_first (c : contour) (T : list contour) :
  (∀ d, d ∈ T → qualifies d = true → (contourArea d <= contourArea c)%Q) →
  ∃ s1 s2, insert_by_area c T = s1 ++ c :: s2 ∧
    Forall (fun d => qualifies d = false) s1.
Proof.
  induction T as [|d T IH]; intros Hle.
  - exists [], []. by split.
  - cbn [insert_by_area].
    destruct (Qgtb (contourArea d) (contourArea c)) eqn:Hgt.
    + destruct IH as (s1 & s2 & Heq & Hs1).
      { intros e He. apply Hle. by apply list_elem_of_further. }
      exists (d :: s1), s2. rewrite Heq. split; [done|].
      constructor; [|done].
      destruct (qualifies d) eqn:Hq; [|done]. exfalso.
      apply Qgtb_lt in Hgt. eapply Qlt_not_le; [exact Hgt|].
      apply Hle; [apply list_elem_of_here | done].
    + exists [], (d :: T). by split.
Qed.

(** A contour that is smaller than [c] if it qualifies does not come to
    stand before [c] unless it does not qualify. *)
Lemma insert_by_area_behind (x c : contour) (s1 s2 : list contour) :
  area_descending (s1 ++ c :: s2) →
  Forall (fun d => qualifies d = false) s1 →
  (qualifies x = true → (contourArea x < contourArea c)%Q) →
  ∃ s1' s2', insert_by_area x (s1 ++ c :: s2) = s1' ++ c :: s2' ∧
    Forall (fun d => qualifies d = false) s1'.
Proof.
  intros Hsorted Hs1 Hx.
  induction s1 as [|d s1 IH]; cbn [app insert_by_area].
  - destruct (Qgtb (contourArea c) (contourArea x)) eqn:Hgt.
    + exists [], (insert_by_area x s2). by split.
    + exists [x], s2. split; [done|]. constructor; [|done].
      destruct (qualifies x) eqn:Hq; [|done]. exfalso.
      apply Qgtb_le in Hgt. eapply Qlt_not_le; [by apply Hx | exact Hgt].
  - apply Forall_cons in Hs1 as [Hd Hs1].
    unfold area_descending in Hsorted. cbn [app] in Hsorted.
    apply StronglySorted_inv in Hsorted as [Hsorted Hall].
    destruct (Qgtb (contourArea d) (contourArea x)) eqn:Hgt.
    + destruct (IH Hsorted Hs1) as (s1' & s2' & Heq & Hs1').
      exists (d :: s1'), s2'. rewrite Heq. split; [done | by constructor].
    + exists (x :: d :: s1), s2. split; [done|].
      constructor; [|by constructor].
      destruct (qualifies x) eqn:Hq; [|done]. exfalso.
      apply Qgtb_le in Hgt.
      assert (contourArea c <= contourArea d)%Q as Hcd.
      { eapply Forall_forall in Hall; [exact Hall|].
        apply elem_of_app. right. apply list_elem_of_here. }
      eapply Qlt_not_le; [by apply Hx|]. by eapply Qle_trans.
Qed.

Lemma select_document_first_largest (l1 l2 : list contour) (c : contour) :
  qualifies c = true →
  (∀ d, d ∈ l1 → qualifies d = true → (contourArea d < contourArea c)%Q) →
  (∀ d, d ∈ l2 → qualifies d = true → (contourArea d <= contourArea c)%Q) →
  select_document (l1 ++ c :: l2) = Some (approx_of c).
Proof.
  intros Hc Hl1 Hl2. unfold select_document.
  assert (∃ s1 s2, sorted_by_area (l1 ++ c :: l2) = s1 ++ c :: s2 ∧
            Forall (fun d => qualifies d = false) s1) as (s1 & s2 & Heq & Hs1).
  { induction l1 as [|x l1 IH]; cbn [app sorted_by_area].
    - apply insert_by_area_first. intros d Hd. apply Hl2.
      by rewrite <- (sorted_by_area_perm l2).
    - destruct IH as (s1 & s2 & Heq & Hs1).
      { intros d Hd. apply Hl1. by apply list_elem_of_further. }
      rewrite Heq. apply insert_by_area_behind; [|done|].
      + rewrite <- Heq. apply sorted_by_area_sorted.
      + apply Hl1. apply list_elem_of_here. }
  apply find_document_Some. by exists s1, c, s2.
Qed.

(** X11: what is selected is the approximation of the first listed among
    the qualifying contours of largest area, and nothing else: every
    qualifying contour listed before it is strictly smaller, and every
    qualifying contour listed after it is not larger. *)
Theorem select_document_first_among_largest (l : list contour) (a : contour) :
  select_document l = Some a ↔
  ∃ l1 c l2, l = l1 ++ c :: l2 ∧ qualifies c = true ∧ a = approx_of c ∧
    (∀ d, d ∈ l1 → qualifies d = true → (contourArea d < contourArea c)%Q) ∧
    (∀ d, d ∈ l2 → qualifies d = true → (contourArea d <= contourArea c)%Q).
Proof.
  split.
  - intros Hsel.
    destruct (select_document_is_largest l a Hsel) as (m & Hm & Hqm & -> & Hmax).
    set (P := fun d : contour =>
                qualifies d = true ∧ Qle_bool (contourArea m) (contourArea d) = true).
    destruct (list_find_elem_of P l m) as [[i c] Hfind]; [done | |].
    { split; [done|]. apply Qle_bool_iff, Qle_refl. }
    apply list_find_Some in Hfind as (Hi & [Hqc Hmc] & Hbefore).
    apply Qle_bool_iff in Hmc.
    assert (l = take i l ++ c :: drop (S i) l) as Hsplit.
    { symmetry. by apply take_drop_middle. }
    assert (∀ d, d ∈ take i l → qualifies d = true →
              (contourArea d < contourArea c)%Q) as Hl1.
    { intros d [j [Hj Hlt]]%elem_of_take Hqd.
      apply Qnot_le_lt. intros Hcd. apply (Hbefore j d Hj Hlt).
      split; [done|]. apply Qle_bool_iff. by eapply Qle_trans. }
    assert (∀ d, d ∈ drop (S i) l → qualifies d = true →
              (contourArea d <= contourArea c)%Q) as Hl2.
    { intros d Hd Hqd. eapply Qle_trans; [|exact Hmc].
      apply Hmax; [|done]. eapply subseteq_drop. done. }
    exists (take i l), c, (drop (S i) l). split_and!; try done.
    pose proof (select_document_first_largest _ _ _ Hqc Hl1 Hl2) as Hsel'.
    rewrite <- Hsplit in Hsel'. congruence.
  - intros (l1 & c & l2 & -> & Hc & -> & Hl1 & Hl2).
    by apply select_document_first_largest.
Qed.

(** X12: selection fails exactly when no contour qualifies, in whatever
    order the contours are listed. *)
Theorem select_document_none (l : list contour) :
  select_document l = None ↔ ∀ c, c ∈ l → qualifies c = false.
Proof.
  unfold select_document. rewrite find_document_None, Forall_forall.
  split; intros Hall c Hc; apply Hall.
  - by rewrite sorted_by_area_perm.
  - by rewrite <- (sorted_by_area_perm l).
Qed.
End SelectionOrder.

(** ** Views and copies *)

Lemma slice_index_le (i : Z) (n : nat) : (slice_index i n ≤ n)%nat.
Proof. unfold slice_index. destruct (Z.ltb_spec i 0); lia. Qed.

Lemma slice_index_inside (i : Z) (n : nat) :
  0 <= i <= Z.of_nat n → slice_index i n = Z.to_nat i.
Proof. intros Hi. unfold slice_index. destruct (Z.ltb_spec i 0); lia. Qed.

Lemma take_drop_take {A} (k m n : nat) (l : list A) :
  (m + k ≤ n)%nat → take k (drop m (take n l)) = take k (drop m l).
Proof.
  intros Hle. rewrite skipn_firstn_comm, take_take. f_equal. lia.
Qed.

(** Slicing never leaves the buffer. *)
Lemma slice2_in_bounds (a : ndarray) (buf : Image) (r0 r1 c0 c1 : Z) :
  in_bounds a buf → in_bounds (slice2 a r0 r1 c0 c1) buf.
Proof.
  intros [Hrows Hcols]. unfold in_bounds, slice2. cbn [row_off col_off nrows ncols].
  pose proof (slice_index_le r0 (nrows a)). pose proof (slice_index_le r1 (nrows a)).
  pose proof (slice_index_le c0 (ncols a)). pose proof (slice_index_le c1 (ncols a)).
  split; [lia|]. eapply Forall_impl; [exact Hcols|]. intros row Hrow. cbn in *. lia.
Qed.

(** A slice of an array shows the pixels that the same slice of a copy of
    the array shows. *)
Lemma window_slice2_copy (a : ndarray) (buf : Image) (l : addr) (r0 r1 c0 c1 : Z) :
  in_bounds a buf → (0 < nrows a)%nat →
  window (slice2 (whole l (window a buf)) r0 r1 c0 c1) (window a buf)
  = window (slice2 a r0 r1 c0 c1) buf.
Proof.
  intros Hin Hpos. pose proof (dims_window a buf Hin Hpos) as Hdims.
  unfold dims, shape in Hdims. injection Hdims as Hlen Hwid.
  apply Nat2Z.inj in Hlen, Hwid.
  unfold slice2. cbn [whole base row_off col_off nrows ncols]. rewrite Hlen, Hwid.
  pose proof (slice_index_le r0 (nrows a)) as Hr0.
  pose proof (slice_index_le r1 (nrows a)) as Hr1.
  pose proof (slice_index_le c0 (ncols a)) as Hc0.
  pose proof (slice_index_le c1 (ncols a)) as Hc1.
  set (rs := slice_index r0 (nrows a)) in *. set (re := slice_index r1 (nrows a)) in *.
  set (cs := slice_index c0 (ncols a)) in *. set (ce := slice_index c1 (ncols a)) in *.
  unfold window at 1 3. cbn [row_off col_off nrows ncols]. unfold window.
  rewrite skipn_map, firstn_map, map_map.
  rewrite (take_drop_take (re - rs) rs (nrows a)) by lia.
  rewrite drop_drop. apply map_ext. intros row.
  rewrite (take_drop_take (ce - cs) cs (ncols a)) by lia.
  by rewrite drop_drop.
Qed.

Lemma padding_bounds (h w k : Z) :
  0 < h → 0 < w → 20 <= k →
  0 <= Z.min h w `div` k ∧ 10 * (Z.min h w `div` k) <= h ∧
  10 * (Z.min h w `div` k) <= w.
Proof.
  intros Hh Hw Hk.
  pose proof (Z.div_pos (Z.min h w) k ltac:(lia) ltac:(lia)).
  pose proof (Z.mul_div_le (Z.min h w) k ltac:(lia)). nia.
Qed.

Lemma padded_corners_rect (h w p : Z) :
  padded_corners h w p = rect_corners p p (w - 2 * p) (h - 2 * p).
Proof. unfold padded_corners, rect_corners. repeat f_equal; lia. Qed.

(** The corners of both fallback tiers are already in the order top-left,
    top-right, bottom-right, bottom-left, and span [w - 2p] by [h - 2p]. *)
Lemma padded_corners_ordered (h w p : Z) :
  0 < w - 2 * p → 0 < h - 2 * p →
  order_points (padded_corners h w p) = Some (padded_corners h w p) ∧
  target_size (padded_corners h w p) = Some (w - 2 * p, h - 2 * p).
Proof.
  intros Hw Hh. rewrite padded_corners_rect. split.
  - by apply (order_points_rectangle p p).
  - by apply (target_size_rectangle p p).
Qed.

Section FallbackTiers.
Context `{CV2}.

(** X13: on a non-empty [h] by [w] input without a qualifying contour and
    with four lines or more, the corners returned are the frame inset by
    [p = min(h, w) // 20], already in order; the image returned is what
    [cv2.warpPerspective] returns for the size [(w - 2p, h - 2p)], and
    neither side of that size is 0. *)
Theorem detect_document_edges_line_estimate (σ : store) (image : ndarray)
    (buf : Image) (h w : Z) :
  σ !! base image = Some buf → in_bounds image buf →
  shape image = (h, w) → 0 < h → 0 < w →
  document_contour (window image buf) = None →
  at_least_4_lines (hough_lines (window image buf)) = true →
  let p := Z.min h w `div` 20 in
  let corners := padded_corners h w p in
  0 < w - 2 * p ∧ 0 < h - 2 * p ∧
  order_points corners = Some corners ∧
  ∃ out σ',
    detect_document_edges image σ = Some ((out, corners), σ') ∧
    (base out ∉ dom σ) ∧
    pixels_of σ' out =
      Some (warpPerspective (window image buf)
              (getPerspectiveTransform corners (dst_rect (w - 2 * p) (h - 2 * p)))
              (w - 2 * p, h - 2 * p)).
Proof.
  intros Hbuf Hin Hshape Hh Hw Hdoc Hlines p corners.
  destruct (padding_bounds h w 20 Hh Hw ltac:(lia)) as (Hp0 & Hph & Hpw). fold p in Hp0, Hph, Hpw.
  assert (0 < w - 2 * p) as HW by lia. assert (0 < h - 2 * p) as HH by lia.
  destruct (padded_corners_ordered h w p HW HH) as [Hord Hsize]. fold corners in Hord, Hsize.
  split_and!; try done.
  assert (0 < nrows image)%nat as Hpos.
  { unfold shape in Hshape. injection Hshape as Hrows _. lia. }
  destruct (detect_document_edges_outcome σ image buf Hbuf)
    as ([out cs] & σ' & Hrun & _ & Hfresh & res & Hres & Hout).
  cbn [fst snd] in *. unfold tier_outcome, source_of in Hout.
  rewrite Hdoc, Hlines, (dims_window _ _ Hin Hpos), Hshape in Hout.
  fold p in Hout. fold corners in Hout.
  destruct Hout as (-> & tl & tr & br & bl & Hrect & Hwhole & ->).
  exists out, σ'. split_and!; try done.
  unfold pixels_of. rewrite Hres. cbn. rewrite Hwhole, window_whole.
  pose proof (target_size_ordered _ _ _ _ _ Hrect) as Hsize'.
  rewrite Hsize in Hsize'. injection Hsize' as Hmw Hmh.
  assert (corners = [tl; tr; br; bl]) as Hcorners by congruence.
  unfold warp_of. by rewrite <- Hmw, <- Hmh, <- Hcorners.
Qed.

(** X14: on a non-empty [h] by [w] input without a qualifying contour and
    with fewer than four lines, the corners returned are the frame inset by
    [p = min(h, w) // 40], already in order; the image returned has
    [h - 2p] rows and [w - 2p] columns, neither of them 0; it shows the
    pixels of the input between the corners, and it is backed by a buffer
    that the caller did not have. *)
Theorem detect_document_edges_padded_crop (σ : store) (image : ndarray)
    (buf : Image) (h w : Z) :
  σ !! base image = Some buf → in_bounds image buf →
  shape image = (h, w) → 0 < h → 0 < w →
  document_contour (window image buf) = None →
  at_least_4_lines (hough_lines (window image buf)) = false →
  let p := Z.min h w `div` 40 in
  let corners := padded_corners h w p in
  0 < w - 2 * p ∧ 0 < h - 2 * p ∧
  order_points corners = Some corners ∧
  ∃ out σ',
    detect_document_edges image σ = Some ((out, corners), σ') ∧
    (base out ∉ dom σ) ∧
    shape out = (h - 2 * p, w - 2 * p) ∧
    pixels_of σ' out = Some (window (slice2 image p (h - p) p (w - p)) buf) ∧
    dims (window (slice2 image p (h - p) p (w - p)) buf) = (h - 2 * p, w - 2 * p).
Proof.
  intros Hbuf Hin Hshape Hh Hw Hdoc Hlines p corners.
  destruct (padding_bounds h w 40 Hh Hw ltac:(lia)) as (Hp0 & Hph & Hpw). fold p in Hp0, Hph, Hpw.
  assert (0 < w - 2 * p) as HW by lia. assert (0 < h - 2 * p) as HH by lia.
  destruct (padded_corners_ordered h w p HW HH) as [Hord _]. fold corners in Hord.
  split_and!; try done.
  assert (0 < nrows image)%nat as Hpos.
  { unfold shape in Hshape. injection Hshape as Hrows _. lia. }
  destruct (detect_document_edges_padded σ image buf Hbuf Hin Hpos Hdoc Hlines)
    as ([out cs] & σ' & Hrun & Hpost).
  cbn [fst snd] in *. rewrite Hshape in Hpost. fold p in Hpost. fold corners in Hpost.
  destruct Hpost as (-> & Hdims & Hfresh & Hres & Hout).
  assert (shape (slice2 image p (h - p) p (w - p)) = (h - 2 * p, w - 2 * p)) as Hsliced.
  { unfold shape in Hshape. injection Hshape as Hrows Hcols.
    unfold shape, slice2. cbn [nrows ncols].
    rewrite !slice_index_inside by lia. f_equal; lia. }
  exists out, σ'. split_and!; try done.
  - rewrite Hout. rewrite <- Hsliced. unfold dims in Hdims. injection Hdims as Hl Hm.
    unfold shape in Hshape. injection Hshape as Hrows Hcols.
    unfold shape, slice2. cbn [nrows ncols whole].
    replace (length (window image buf)) with (nrows image) by lia.
    replace (max_list (length <$> window image buf)) with (ncols image) by lia.
    done.
  - unfold pixels_of. rewrite Hres. cbn. rewrite Hout.
    cbn [base slice2 whole]. f_equal.
    change (window _ (window image buf))
      with (window (slice2 (whole (base out) (window image buf)) p (h - p) p (w - p))
              (window image buf)).
    by apply window_slice2_copy.
  - rewrite <- Hsliced. apply dims_window; [by apply slice2_in_bounds|].
    assert (Z.of_nat (nrows (slice2 image p (h - p) p (w - p))) = h - 2 * p) as Hn.
    { unfold shape in Hsliced. by injection Hsliced. }
    lia.
Qed.

(** X15: called on its own, the alternative detector returns in its last
    tier the same corners and shows the same pixels, but its result is a
    slice of the caller's own buffer: nothing was copied. *)
Theorem alternative_crop_is_a_view (σ : store) (image : ndarray) (buf : Image) :
  σ !! base image = Some buf →
  at_least_4_lines (hough_lines (window image buf)) = false →
  let '(h, w) := shape image in
  let p := Z.min h w `div` 40 in
  ∃ out σ',
    detect_document_edges_alternative image σ
      = Some ((out, padded_corners h w p), σ') ∧
    out = slice2 image p (h - p) p (w - p) ∧
    base out = base image ∧ (base out ∈ dom σ) ∧
    σ' !! base image = Some buf ∧
    pixels_of σ' out = Some (window (slice2 image p (h - p) p (w - p)) buf).
Proof.
  intros Hbuf Hlines.
  destruct (detect_document_edges_alternative_runs σ image buf Hbuf)
    as ([out corners] & σ' & Hrun & Halt).
  cbn [fst snd] in *. unfold alternative_result in Halt. rewrite Hlines in Halt.
  destruct (shape image) as [h w]. destruct Halt as (Hsub & -> & ->).
  exists (slice2 image (Z.min h w `div` 40) (h - Z.min h w `div` 40)
            (Z.min h w `div` 40) (w - Z.min h w `div` 40)), σ'.
  assert (σ' !! base image = Some buf) as Hbuf' by by eapply lookup_weaken.
  split_and!; try done.
  - cbn [base slice2]. apply elem_of_dom. by eexists.
  - unfold pixels_of. cbn [base slice2]. by rewrite Hbuf'.
Qed.
End FallbackTiers.

(** ** The request handler *)

(** A loop of drawing calls on [a] leaves every other buffer alone. *)
Lemma for_each_inplace_frame {A} (l : list A) (f : A → Image → Image)
    (a : ndarray) (σ : store) :
  is_Some (σ !! base a) →
  runs (for_each l (fun x => call_inplace (f x) a)) σ (fun _ σ' =>
    is_Some (σ' !! base a) ∧ ∀ k, k ≠ base a → σ' !! k = σ !! k).
Proof.
  revert σ. induction l as [|x l IH]; intros σ [buf Hbuf]; cbn.
  - apply runs_ret. split; [by eexists | done].
  - apply runs_bind. eapply runs_call_inplace; [done|].
    eapply runs_mono; [apply IH; rewrite lookup_insert_eq; by eexists|].
    intros _ σ' [Hsome Hframe]. split; [done|].
    intros k Hk. rewrite Hframe by done. by rewrite lookup_insert_ne.
Qed.

(** X16: the lines of [process_document] that run the pipeline and draw
    the markers leave every buffer of the caller as it was, the decoded
    input among them.  The markers go to a copy of the input, which is
    neither the input nor the enhanced image; after the drawing the
    enhanced image still holds the enhancement of what detection returned,
    and four corners are reported. *)
Theorem process_document_core_keeps_images `{CV2} (σ : store) (image : ndarray)
    (buf : Image) :
  σ !! base image = Some buf →
  ∃ enhanced overlay corners σ',
    process_document_core image σ = Some ((enhanced, overlay, corners), σ') ∧
    σ ⊆ σ' ∧ pixels_of σ' image = Some (window image buf) ∧
    length corners = 4%nat ∧
    (base overlay ∉ dom σ) ∧ (base enhanced ∉ dom σ) ∧
    base overlay ≠ base enhanced ∧
    ∃ out res,
      tier_outcome (window image buf) out res corners ∧
      pixels_of σ' enhanced = Some (enhanced_pixels (window out res)).
Proof.
  intros Hbuf.
  cut (runs (process_document_core image) σ (fun r σ' =>
         σ ⊆ σ' ∧ pixels_of σ' image = Some (window image buf) ∧
         length r.2 = 4%nat ∧
         (base r.1.2 ∉ dom σ) ∧ (base r.1.1 ∉ dom σ) ∧
         base r.1.2 ≠ base r.1.1 ∧
         ∃ out res,
           tier_outcome (window image buf) out res r.2 ∧
           pixels_of σ' r.1.1 = Some (enhanced_pixels (window out res)))).
  { intros ([[enhanced overlay] corners] & σ' & Hrun & Hpost).
    by exists enhanced, overlay, corners, σ'. }
  unfold process_document_core.
  apply runs_bind. eapply runs_mono; [by apply detect_document_edges_outcome|].
  intros [cropped corners] σ1 (Hsub1 & _ & res & Hres & Hout). cbn [fst snd] in *.
  pose proof (tier_outcome_length _ _ _ _ Hout) as Hlen.
  apply runs_bind. eapply runs_mono; [by eapply enhance_document_runs|].
  intros enhanced σ2 (Hsub2 & Hfresh2 & Henh & Hcontent). cbn zeta in Henh, Hcontent.
  fold (enhanced_pixels (window cropped res)) in Henh, Hcontent.
  assert (σ ⊆ σ2) as Hsub by by etrans.
  assert (σ2 !! base image = Some buf) as Hbuf2 by by eapply lookup_weaken.
  apply runs_bind. eapply runs_call; [exact Hbuf2|].
  intros l σ3 Hl Hext3 Hnew.
  assert (l ∉ dom σ) as Hl0 by by eapply fresh_weaken.
  assert (l ≠ base enhanced) as Hother.
  { intros ->. apply Hl, elem_of_dom. by eexists. }
  apply runs_bind. eapply runs_mono.
  { eapply (for_each_inplace_frame _ _ _ σ3). cbn [base whole]. by eexists. }
  intros _ σ4 ([canvas Hcanvas] & Hframe). cbn [base whole] in Hcanvas, Hframe.
  apply runs_bind. eapply runs_call_inplace; [cbn [base whole]; exact Hcanvas|].
  apply runs_ret. cbn [fst snd base whole].
  assert (∀ k x, k ≠ l → σ3 !! k = Some x →
            <[l := paste (whole l (id (window image buf)))
                     (polylines (window (whole l (id (window image buf))) canvas)
                        [corners] true (0, 255, 0) 3) canvas]> σ4 !! k = Some x)
    as Hkept.
  { intros k x Hk Hx. rewrite lookup_insert_ne by done. by rewrite Hframe. }
  split_and!.
  - apply map_subseteq_spec. intros k x Hx. apply Hkept.
    + intros ->. apply Hl0, elem_of_dom. by eexists.
    + eapply lookup_weaken; [exact Hx | by etrans].
  - unfold pixels_of. erewrite Hkept; [done | | by eapply lookup_weaken].
    intros Heq. apply Hl0. rewrite <- Heq. apply elem_of_dom. by eexists.
  - done.
  - done.
  - by eapply fresh_weaken.
  - done.
  - exists cropped, res. split; [done|].
    unfold pixels_of. erewrite Hkept; [| done | by eapply lookup_weaken].
    cbn. rewrite Henh. by rewrite window_whole.
Qed.

(** ** The data-URL prefix *)

Lemma split_on_no_sep (sep : ascii) (p : text) :
  sep ∉ p → split_on sep p = [p].
Proof.
  induction p as [|ch p IH]; [done|]. intros Hp.
  apply not_elem_of_cons in Hp as [Hne Hp]. cbn.
  destruct (Ascii.eqb_spec ch sep) as [->|_]; [done|]. by rewrite IH.
Qed.

Lemma split_on_first (sep : ascii) (m s : text) :
  sep ∉ m → split_on sep (m ++ sep :: s) = m :: split_on sep s.
Proof.
  induction m as [|ch m IH]; intros Hm; cbn.
  - by rewrite Ascii.eqb_refl.
  - apply not_elem_of_cons in Hm as [Hne Hm].
    destruct (Ascii.eqb_spec ch sep) as [->|_]; [done|]. by rewrite IH.
Qed.


Lemma startswith_app (prefix s : text) : startswith prefix (prefix ++ s) = true.
Proof.
  induction prefix as [|a prefix IH]; [done|]. cbn.
  by rewrite Ascii.eqb_refl, IH.
Qed.

(** X17: a data URL ['data:image' m ',' p] whose media type [m] and payload
    [p] hold no comma gives the payload [p]; whatever follows a second
    comma is dropped. *)
Theorem image_payload_data_url (m p rest : text) :
  (","%char ∉ m) → (","%char ∉ p) →
  image_payload (data_image ++ m ++ ","%char :: p) = Some p ∧
  image_payload (data_image ++ m ++ ","%char :: p ++ ","%char :: rest) = Some p.
Proof.
  intros Hm Hp. unfold image_payload. rewrite !startswith_app.
  assert (","%char ∉ data_image ++ m) as Hhead.
  { intros [Hin | Hin]%elem_of_app; [|done]. revert Hin. compute_done. }
  split.
  - rewrite (app_assoc data_image m), split_on_first by done.
    by rewrite split_on_no_sep.
  - rewrite (app_assoc data_image m), split_on_first by done.
    by rewrite split_on_first.
Qed.

Lemma image_payload_data_url_witness :
  let m := [ "/"; "p"; "n"; "g"; ";"; "b"; "a"; "s"; "e"; "6"; "4" ]%char in
  let p := [ "i"; "V"; "B"; "O"; "R"; "w"; "="; "=" ]%char in
  (","%char ∉ m) ∧ (","%char ∉ p) ∧
  image_payload (data_image ++ m ++ ","%char :: p) = Some p.
Proof.
  intros m p.
  assert (","%char ∉ m) as Hm by compute_done.
  assert (","%char ∉ p) as Hp by compute_done.
  split; [exact Hm|]. split; [exact Hp|].
  destruct (image_payload_data_url m p [] Hm Hp) as [Hpayload _]. exact Hpayload.
Defined.


(** ** Concrete runs of the fallback tiers and of the handler *)

Lemma white_20_in_bounds : in_bounds (whole 0 white_20) white_20.
Proof.
  split; [vm_compute; lia|]. apply Forall_forall. intros row Hrow.
  apply elem_of_replicate in Hrow as [-> _]. vm_compute. lia.
Defined.

Lemma detect_document_edges_line_estimate_witness :
  let cv := stand_in [] (Some four_lines) in
  just white_20 !! base (whole 0 white_20) = Some white_20 ∧
  in_bounds (whole 0 white_20) white_20 ∧
  shape (whole 0 white_20) = (20, 20) ∧ 0 < 20 ∧
  document_contour (window (whole 0 white_20) white_20) = None ∧
  at_least_4_lines (hough_lines (window (whole 0 white_20) white_20)) = true ∧
  ∃ out σ',
    detect_document_edges (whole 0 white_20) (just white_20)
      = Some ((out, padded_corners 20 20 1), σ') ∧
    (base out ∉ dom (just white_20)).
Proof.
  intros cv.
  split; [reflexivity|]. split; [exact white_20_in_bounds|].
  split; [reflexivity|]. split; [lia|]. split; [reflexivity|]. split; [reflexivity|].
  destruct (detect_document_edges_line_estimate (just white_20) (whole 0 white_20)
              white_20 20 20)
    as (_ & _ & _ & out & σ' & Hrun & Hfresh & _);
    [reflexivity | exact white_20_in_bounds | reflexivity | lia | lia
    | reflexivity | reflexivity |].
  exists out, σ'. split; [exact Hrun | exact Hfresh].
Defined.

Lemma gray_500_in_bounds : in_bounds (whole 0 gray_500) gray_500.
Proof.
  split; [vm_compute; lia|]. apply Forall_forall. intros row Hrow.
  apply elem_of_replicate in Hrow as [-> _]. vm_compute. lia.
Defined.

Lemma detect_document_edges_padded_crop_witness :
  let cv := stand_in [] None in
  just gray_500 !! base (whole 0 gray_500) = Some gray_500 ∧
  in_bounds (whole 0 gray_500) gray_500 ∧
  shape (whole 0 gray_500) = (500, 500) ∧ 0 < 500 ∧
  document_contour (window (whole 0 gray_500) gray_500) = None ∧
  at_least_4_lines (hough_lines (window (whole 0 gray_500) gray_500)) = false ∧
  ∃ out σ',
    detect_document_edges (whole 0 gray_500) (just gray_500)
      = Some ((out, padded_corners 500 500 12), σ') ∧
    shape out = (476, 476).
Proof.
  intros cv.
  split; [reflexivity|]. split; [exact gray_500_in_bounds|].
  split; [reflexivity|]. split; [lia|]. split; [reflexivity|]. split; [reflexivity|].
  destruct (detect_document_edges_padded_crop (just gray_500) (whole 0 gray_500)
              gray_500 500 500)
    as (_ & _ & _ & out & σ' & Hrun & _ & Hshape & _);
    [reflexivity | exact gray_500_in_bounds | reflexivity | lia | lia
    | reflexivity | reflexivity |].
  exists out, σ'. split; [exact Hrun | exact Hshape].
Defined.

Lemma alternative_crop_is_a_view_witness :
  let cv := stand_in [] None in
  just white_20 !! base (whole 0 white_20) = Some white_20 ∧
  at_least_4_lines (hough_lines (window (whole 0 white_20) white_20)) = false ∧
  ∃ out σ',
    detect_document_edges_alternative (whole 0 white_20) (just white_20)
      = Some ((out, padded_corners 20 20 0), σ') ∧
    base out = base (whole 0 white_20).
Proof.
  intros cv. split; [reflexivity|]. split; [reflexivity|].
  pose proof (alternative_crop_is_a_view (just white_20) (whole 0 white_20) white_20
                eq_refl eq_refl) as Hview.
  change (shape (whole 0 white_20)) with (20, 20) in Hview.
  destruct Hview as (out & σ' & Hrun & _ & Hbase & _).
  exists out, σ'. split; [exact Hrun | exact Hbase].
Defined.

Lemma process_document_core_keeps_images_witness :
  let cv := stand_in [ large_quad ] None in
  just white_20 !! base (whole 0 white_20) = Some white_20 ∧
  ∃ enhanced overlay corners σ',
    process_document_core (whole 0 white_20) (just white_20)
      = Some ((enhanced, overlay, corners), σ') ∧
    just white_20 ⊆ σ' ∧
    pixels_of σ' (whole 0 white_20) = Some (window (whole 0 white_20) white_20) ∧
    base overlay ≠ base enhanced.
Proof.
  intros cv. split; [reflexivity|].
  destruct (process_document_core_keeps_images (just white_20) (whole 0 white_20)
              white_20)
    as (enhanced & overlay & corners & σ' & Hrun & Hsub & Hpix & _ & _ & _ & Hne & _);
    [reflexivity|].
  exists enhanced, overlay, corners, σ'.
  split; [exact Hrun|]. split; [exact Hsub|]. split; [exact Hpix | exact Hne].
Defined.
